(** * rm_utils: utility functions for random matrix evaluations

    A shallow embedding of [src/rm_utils.py] (functions [rm_sampling],
    [wigner], [rmse], [get_bulk_edge_values]) together with the part of
    numpy's array semantics these functions rely on.

    Floating-point numbers are the [spec_float] values of the Standard
    Library, with the IEEE-754 operations of [SpecFloat] (round to nearest,
    ties to even) instantiated at a numpy dtype: binary32 for [np.float32],
    binary64 for [np.float64] and for Python's own [float].  A one-dimensional
    numpy array is a list of floats, a two-dimensional one a list of rows. *)

From Stdlib Require Import ZArith List Bool Lia PeanoNat Sorted Permutation.
From Stdlib Require Import Floats.SpecFloat.
Import ListNotations.

Set Implicit Arguments.

(* ================================================================= *)
(** ** Floating-point data *)

Definition float := spec_float.

(** A numpy floating dtype: mantissa width (hidden bit included) and the
    exponent of the infinities. *)
Record dtype := Dtype { dt_prec : Z; dt_emax : Z }.

Definition float32 : dtype := Dtype 24 128.
Definition float64 : dtype := Dtype 53 1024.

Definition nan : float := S754_nan.
Definition pzero : float := S754_zero false.

Section Arith.
Variable t : dtype.

Definition fadd : float -> float -> float := SFadd (dt_prec t) (dt_emax t).
Definition fsub : float -> float -> float := SFsub (dt_prec t) (dt_emax t).
Definition fmul : float -> float -> float := SFmul (dt_prec t) (dt_emax t).
Definition fdiv : float -> float -> float := SFdiv (dt_prec t) (dt_emax t).
Definition fsqrt : float -> float := SFsqrt (dt_prec t) (dt_emax t).

(** An integer converted to the dtype (rounded when it does not fit). *)
Definition of_Z (z : Z) : float :=
  binary_normalize (dt_prec t) (dt_emax t) z 0 false.

(** A float of any dtype converted to this one: [x.astype(t)]. *)
Definition astype (x : float) : float :=
  match x with
  | S754_finite s m e => binary_round (dt_prec t) (dt_emax t) s m e
  | _ => x
  end.

(** The value is one the dtype can hold. *)
Definition valid (x : float) : bool :=
  valid_binary (dt_prec t) (dt_emax t) x.
End Arith.

(** IEEE comparisons: every comparison with NaN is false. *)
Definition fle (x y : float) : bool :=
  match SFcompare x y with
  | Some Lt | Some Eq => true
  | _ => false
  end.

Definition fge (x y : float) : bool :=
  match SFcompare x y with
  | Some Gt | Some Eq => true
  | _ => false
  end.

Definition fgt (x y : float) : bool :=
  match SFcompare x y with
  | Some Gt => true
  | _ => false
  end.

Definition is_nan (x : float) : bool :=
  match x with S754_nan => true | _ => false end.

(** Neither NaN nor an infinity. *)
Definition is_finite (x : float) : bool :=
  match x with
  | S754_zero _ | S754_finite _ _ _ => true
  | _ => false
  end.

(** The sign bit is clear: [+0], a positive number or [+inf]. *)
Definition sign_clear (x : float) : bool :=
  match x with
  | S754_zero s | S754_infinity s | S754_finite s _ _ => negb s
  | S754_nan => false
  end.

(** Python float literals and [np.pi], all binary64. *)
Definition py_float_of_int (z : Z) : float := of_Z float64 z.
Definition py_half : float := S754_finite false 4503599627370496 (-53).
Definition np_pi : float := S754_finite false 7074237752028440 (-51).

(** A Python float used as a scalar operand of an array of dtype [t]. *)
Definition scalar (t : dtype) (x : float) : float := astype t x.

(* ================================================================= *)
(** ** The numpy primitives the module uses *)

Module Np.

Definition bind {A B} (o : option A) (k : A -> option B) : option B :=
  match o with
  | Some a => k a
  | None => None
  end.

Section Elementwise.
Variable t : dtype.

Definition zip_with {A B C} (f : A -> B -> C) (a : list A) (b : list B)
  : list C :=
  map (fun p => f (fst p) (snd p)) (combine a b).

(** A binary ufunc on two one-dimensional arrays.  Shapes [(n,)] and
    [(m,)] are compatible when [n = m] or one of them is 1, in which
    case that single element is stretched over the other array; any
    other pair raises [ValueError] (operands could not be broadcast
    together), here [None]. *)
Definition broadcast (f : float -> float -> float) (a b : list float)
  : option (list float) :=
  if Nat.eqb (length a) (length b) then Some (zip_with f a b)
  else match a, b with
       | [x], _ => Some (map (f x) b)
       | _, [y] => Some (map (fun x => f x y) a)
       | _, _ => None
       end.

Definition subtract : list float -> list float -> option (list float) :=
  broadcast (fsub t).

(** [np.square(a)], also what [a ** 2] computes. *)
Definition square (a : list float) : list float :=
  map (fun x => fmul t x x) a.

(** [c - a] for a scalar [c]. *)
Definition rsub_scalar (c : float) (a : list float) : list float :=
  map (fun x => fsub t c x) a.

Definition sqrt (a : list float) : list float := map (fsqrt t) a.

(** [a / c] for a scalar [c]. *)
Definition divide_scalar (a : list float) (c : float) : list float :=
  map (fun x => fdiv t x c) a.

(** *** [a.sum()]: numpy's pairwise summation

    The reduction starts from the identity [0.0] and adds to it the
    pairwise sum of the whole array (the C routine [pairwise_sum] of
    numpy's [add] loop): fewer than 8 elements are added left to right;
    up to 128 elements are summed in eight interleaved accumulators that
    are combined as a balanced tree, the elements left over being added
    one by one; a longer array is cut in two at a multiple of 8 near the
    middle and both parts are summed in the same way. *)

(** The loop [for (i = 8; i < n - n % 8; i += 8) r[j] += a[i + j]]: the
    accumulators and the elements left over. *)
Fixpoint block_accumulate (r rest : list float) : list float * list float :=
  match rest with
  | x0 :: x1 :: x2 :: x3 :: x4 :: x5 :: x6 :: x7 :: rest' =>
      block_accumulate
        (zip_with (fadd t) r [x0; x1; x2; x3; x4; x5; x6; x7]) rest'
  | _ => (r, rest)
  end.

(** A block of 8 to 128 elements. *)
Definition block_sum (a : list float) : float :=
  let '(r, rest) := block_accumulate (firstn 8 a) (skipn 8 a) in
  match r with
  | [r0; r1; r2; r3; r4; r5; r6; r7] =>
      fold_left (fadd t) rest
        (fadd t (fadd t (fadd t r0 r1) (fadd t r2 r3))
                (fadd t (fadd t r4 r5) (fadd t r6 r7)))
  | _ => nan
  end.

(** The recursion, with as much fuel as the array has elements (each
    call on more than 128 elements passes strictly shorter arrays on). *)
Fixpoint pairwise_sum (fuel : nat) (a : list float) : float :=
  let n := length a in
  if Nat.ltb n 8 then fold_left (fadd t) a pzero
  else if Nat.leb n 128 then block_sum a
  else
    match fuel with
    | O => nan
    | S fuel' =>
        let n2 := n / 2 - (n / 2) mod 8 in
        fadd t (pairwise_sum fuel' (firstn n2 a))
               (pairwise_sum fuel' (skipn n2 a))
    end.

Definition sum (a : list float) : float :=
  fadd t pzero (pairwise_sum (length a) a).

(** [a.mean()]: the sum divided by the number of elements; [nan] for
    an empty array.  (numpy may carry out this division in double
    precision before rounding the quotient back to the dtype.) *)
Definition mean (a : list float) : float :=
  fdiv t (sum a) (of_Z t (Z.of_nat (length a))).

Definition cast (a : list float) : list float := map (astype t) a.

(** [-a] *)
Definition negative (a : list float) : list float := map SFopp a.

(** [c * a] for a scalar [c]. *)
Definition rmul_scalar (c : float) (a : list float) : list float :=
  map (fun x => fmul t c x) a.
End Elementwise.

(** [a[:-1]] *)
Definition drop_last {A} (a : list A) : list A := removelast a.

Definition less_equal_scalar (a : list float) (c : float) : list bool :=
  map (fun x => fle x c) a.

Definition greater_equal_scalar (a : list float) (c : float) : list bool :=
  map (fun x => fge x c) a.

(** [m1 * m2] on boolean arrays is the elementwise conjunction. *)
Definition multiply_bool (m1 m2 : list bool) : list bool :=
  zip_with andb m1 m2.

(** [~m] on a boolean array. *)
Definition invert (m : list bool) : list bool := map negb m.

Fixpoint select {A} (mask : list bool) (a : list A) : list A :=
  match mask, a with
  | b :: mask', x :: a' => if b then x :: select mask' a' else select mask' a'
  | _, _ => []
  end.

(** [a[mask]] for a boolean [mask]: the elements at the [True]
    positions, in order.  A mask whose length is not that of [a] raises
    [IndexError] (boolean index did not match indexed array), here
    [None]; except that an empty mask is accepted on any array (numpy
    checks the length of a boolean index only when it is not zero) and
    selects nothing. *)
Definition getitem_mask {A} (a : list A) (mask : list bool)
  : option (list A) :=
  if Nat.eqb (length mask) 0 || Nat.eqb (length mask) (length a)
  then Some (select mask a) else None.

(** *** Two-dimensional arrays, as lists of rows *)

Definition matrix := list (list float).

Definition ncols (X : matrix) : nat :=
  match X with
  | [] => 0
  | r :: _ => length r
  end.

Definition column (j : nat) (X : matrix) : list float :=
  map (fun r => nth j r pzero) X.

(** [X.T] *)
Definition transpose (X : matrix) : matrix :=
  map (fun j => column j X) (seq 0 (ncols X)).

Definition same_shape (X Y : matrix) : bool :=
  Nat.eqb (length X) (length Y) &&
  forallb (fun p => Nat.eqb (length (fst p)) (length (snd p))) (combine X Y).

(** [X + Y] on two matrices of one shape.  (Shapes that differ are
    reported as an error; numpy would still stretch an axis of length 1.) *)
Definition add2 (t : dtype) (X Y : matrix) : option matrix :=
  if same_shape X Y then Some (zip_with (zip_with (fadd t)) X Y) else None.

Definition divide_scalar2 (t : dtype) (X : matrix) (c : float) : matrix :=
  map (fun r => divide_scalar t r c) X.

(** [np.array(rows)] of a list of one-dimensional arrays: a matrix when
    all have one length, an error on a ragged list. *)
Definition array2 (rows : list (list float)) : option matrix :=
  match rows with
  | [] => Some []
  | r :: rest =>
      if forallb (fun r' => Nat.eqb (length r') (length r)) rest
      then Some rows else None
  end.

(** [X.flatten()]: the rows one after the other. *)
Definition flatten (X : matrix) : list float := concat X.

End Np.

(* ================================================================= *)
(** ** wigner *)

(** [rho = np.sqrt(4 - l ** 2) / (2 * np.pi); return rho.astype(np.float32)]
    for an array [l] of dtype [t]. *)
Definition wigner (t : dtype) (l : list float) : list float :=
  let two_pi := fmul float64 (py_float_of_int 2) np_pi in
  let rho :=
    Np.divide_scalar t
      (Np.sqrt t (Np.rsub_scalar t (of_Z t 4) (Np.square t l)))
      (scalar t two_pi) in
  Np.cast float32 rho.

(** The semicircle density at one point, as the specification words it:
    [sqrt(4 - l^2) / (2*pi)], cast to a 32-bit float. *)
Definition wigner_point (t : dtype) (x : float) : float :=
  astype float32
    (fdiv t (fsqrt t (fsub t (of_Z t 4) (fmul t x x)))
            (scalar t (fmul float64 (py_float_of_int 2) np_pi))).

(* ================================================================= *)
(** ** rmse *)

(** [err = np.square(numerical - expected).mean(); return np.sqrt(err)]
    on two one-dimensional arrays of floating dtype [t]. *)
Definition rmse (t : dtype) (numerical expected : list float) : option float :=
  Np.bind (Np.subtract t numerical expected) (fun d =>
  let err := Np.mean t (Np.square t d) in
  Some (fsqrt t err)).

(** The root-mean-square error of two arrays read index by index, as the
    specification words it: [sqrt(mean((numerical - expected)^2))]. *)
Definition rmse_spec (t : dtype) (numerical expected : list float) : float :=
  let n := length numerical in
  let sq i :=
    let d := fsub t (nth i numerical nan) (nth i expected nan) in
    fmul t d d in
  fsqrt t (Np.mean t (map sq (seq 0 n))).


(** [float_sum t l s]: [s] is a floating-point sum of the numbers of [l],
    each taken once, added in some order and some grouping (a sum may also
    start from [0.0]). *)
Inductive float_sum (t : dtype) : list float -> float -> Prop :=
| float_sum_nil : float_sum t [] pzero
| float_sum_one : forall x, float_sum t [x] x
| float_sum_add : forall l1 l2 s1 s2,
    float_sum t l1 s1 -> float_sum t l2 s2 ->
    float_sum t (l1 ++ l2) (fadd t s1 s2)
| float_sum_perm : forall l l' s,
    Permutation l l' -> float_sum t l s -> float_sum t l' s.

(** Two numbers that are equal, or both zeros. *)
Definition same_up_to_zero_sign (x y : float) : Prop :=
  x = y \/ exists s s', x = S754_zero s /\ y = S754_zero s'.

(* ================================================================= *)
(** ** get_bulk_edge_values *)

Definition bulk_edge_result (A : Type) : Type :=
  (list A * list float * list A * list float)%type.

Definition get_bulk_edge_values {A} (t : dtype)
    (counts : list A) (bins : list float) : option (bulk_edge_result A) :=
  let right := Np.less_equal_scalar (Np.drop_last bins)
                 (scalar t (py_float_of_int 2)) in
  let left := Np.greater_equal_scalar (Np.drop_last bins)
                (scalar t (SFopp (py_float_of_int 2))) in
  let bulk_mask := Np.multiply_bool right left in
  let tails_mask := Np.invert bulk_mask in
  Np.bind (Np.getitem_mask counts bulk_mask) (fun bulk_rho =>
  Np.bind (Np.getitem_mask counts tails_mask) (fun tails_rho =>
  Np.bind (Np.getitem_mask (Np.drop_last bins) bulk_mask) (fun bulk_lambdas =>
  Np.bind (Np.getitem_mask (Np.drop_last bins) tails_mask) (fun tails_lambdas =>
  Some (bulk_rho, bulk_lambdas, tails_rho, tails_lambdas))))).

(** The bulk test on one left edge, as the specification words it. *)
Definition in_bulk (t : dtype) (b : float) : bool :=
  fle b (scalar t (py_float_of_int 2)) &&
  fge b (scalar t (SFopp (py_float_of_int 2))).


(* ================================================================= *)
(** ** rm_sampling *)

Section Sampling.
(** The state of the generator passed as [rng]. *)
Variable RNG : Type.

(** [rng.normal(scale=sigma, size=(r, c))]: the matrix drawn and the
    generator's next state. *)
Variable rng_normal : float -> nat -> nat -> RNG -> Np.matrix * RNG.

(** [numpy.linalg.eigvalsh] *)
Variable eigvalsh : Np.matrix -> list float.

(** Python's [x ** y] on floats. *)
Variable float_pow : float -> float -> float.

(** [Xs = (X + X.T) / 2 ** (0.5)] *)
Definition symmetrise (X : Np.matrix) : option Np.matrix :=
  Np.bind (Np.add2 float64 X (Np.transpose X)) (fun S =>
  Some (Np.divide_scalar2 float64 S (float_pow (py_float_of_int 2) py_half))).

(** The body of [for _ in range(n_samples)], with the list [lambdas] and
    the generator threaded through. *)
Fixpoint sampling_loop (n_samples N : nat) (sigma : float)
    (lambdas : list (list float)) (rng : RNG)
  : option (list (list float) * RNG) :=
  match n_samples with
  | O => Some (lambdas, rng)
  | S n' =>
      let '(X, rng') := rng_normal sigma N N rng in
      Np.bind (symmetrise X) (fun Xs =>
      sampling_loop n' N sigma
        (lambdas ++ [Np.cast float32 (eigvalsh Xs)]) rng')
  end.

(** [rm_sampling(n_samples, N, rng)]: the flat array returned and the
    state the generator is left in.  [0 ** (-0.5)] raises
    [ZeroDivisionError]. *)
Definition rm_sampling (n_samples N : nat) (rng : RNG)
  : option (list float * RNG) :=
  match N with
  | O => None
  | _ =>
      let sigma := float_pow (py_float_of_int (Z.of_nat N)) (SFopp py_half) in
      Np.bind (sampling_loop n_samples N sigma [] rng) (fun '(lambdas, rng') =>
      Np.bind (Np.array2 lambdas) (fun lambdas =>
      Some (Np.flatten lambdas, rng')))
  end.

(** *** The sampler as the specification words it *)

(** Entry [(i, j)] of a matrix. *)
Definition entry (X : Np.matrix) (i j : nat) : float :=
  nth j (nth i X []) pzero.

(** [Xs = (X + X^T) / sqrt(2)], entry by entry. *)
Definition Xs_spec (N : nat) (X : Np.matrix) : Np.matrix :=
  map (fun i =>
    map (fun j =>
      fdiv float64 (fadd float64 (entry X i j) (entry X j i))
                   (fsqrt float64 (py_float_of_int 2)))
        (seq 0 N))
      (seq 0 N).

(** The matrices drawn by [n] successive calls of the generator, and the
    state it is left in. *)
Fixpoint draws (n N : nat) (sigma : float) (rng : RNG)
  : list Np.matrix * RNG :=
  match n with
  | O => ([], rng)
  | S n' =>
      let '(X, rng') := rng_normal sigma N N rng in
      let '(Xs, rng'') := draws n' N sigma rng' in
      (X :: Xs, rng'')
  end.

Definition rm_sampling_spec (n_samples N : nat) (rng : RNG)
  : list float * RNG :=
  let sigma := float_pow (py_float_of_int (Z.of_nat N)) (SFopp py_half) in
  let '(Xs, rng') := draws n_samples N sigma rng in
  (concat (map (fun X => map (astype float32) (eigvalsh (Xs_spec N X))) Xs),
   rng').

(** An [r] by [c] matrix. *)
Definition has_shape (r c : nat) (X : Np.matrix) : Prop :=
  length X = r /\ Forall (fun row => length row = c) X.
End Sampling.

(* ================================================================= *)
(** ** normal *)

Definition is_inf (x : float) : bool :=
  match x with S754_infinity _ => true | _ => false end.

(** Python's [x / y] on two floats: [ZeroDivisionError] on a zero
    divisor, the IEEE quotient otherwise. *)
Definition py_truediv (x y : float) : option float :=
  match y with
  | S754_zero _ => None
  | _ => Some (fdiv float64 x y)
  end.

Section Normal.
(** The C library's [pow], which Python's [**] calls on floats. *)
Variable float_pow : float -> float -> float.

(** [np.exp] on one element of an array of the given dtype. *)
Variable np_exp : dtype -> float -> float.

(** Python's [x ** y] on two floats: [OverflowError] when the power of
    finite operands is infinite.  (The other errors of [**], a zero base
    with a negative exponent and a negative base with a fractional one,
    need an exponent that is negative or fractional on a negative base; the
    exponents below are [0.5] on [2 * np.pi] and [2].) *)
Definition py_pow (x y : float) : option float :=
  let r := float_pow x y in
  if is_finite x && is_finite y && is_inf r then None else Some r.

(** [1 / (s * (2 * np.pi) ** (0.5)) * np.exp(-(z ** 2) / (2 * s ** 2))]
    for an array [z] of dtype [t] and a Python float [s]. *)
Definition normal (t : dtype) (z : list float) (s : float)
  : option (list float) :=
  Np.bind (py_pow (fmul float64 (py_float_of_int 2) np_pi) py_half)
    (fun root =>
  Np.bind (py_truediv (py_float_of_int 1) (fmul float64 s root))
    (fun coeff =>
  Np.bind (py_pow s (py_float_of_int 2)) (fun s2 =>
  let scale := fmul float64 (py_float_of_int 2) s2 in
  let arg :=
    Np.divide_scalar t (Np.negative (Np.square t z)) (scalar t scale) in
  Some (Np.rmul_scalar t (scalar t coeff) (map (np_exp t) arg))))).
End Normal.

(** A stand-in for [np.exp], to check assumptions only. *)
Definition demo_exp (t : dtype) (x : float) : float := x.

(** *** A stand-in generator, eigenvalue routine and power function

    Used to check that the assumptions made on [rng.normal], [eigvalsh] and
    [**] below can be met together. *)

Definition demo_normal (sigma : float) (r c : nat) (g : nat)
  : Np.matrix * nat :=
  (repeat (repeat (fmul float64 sigma (of_Z float64 (Z.of_nat (S g)))) c) r,
   S g).

(** The diagonal: the eigenvalues of a diagonal (so of any 1 by 1) matrix. *)
Definition demo_eigvalsh (X : Np.matrix) : list float :=
  map (fun i => entry X i i) (seq 0 (length X)).

(** [x ** 0.5] and [x ** (-0.5)] through the square root. *)
Definition demo_pow (x y : float) : float :=
  match y with
  | S754_finite false _ _ => fsqrt float64 x
  | S754_finite true _ _ => fdiv float64 (of_Z float64 1) (fsqrt float64 x)
  | _ => nan
  end.

(** The positions at which a mask is [True], counted from [i0]. *)
Fixpoint where_true (mask : list bool) (i0 : nat) : list nat :=
  match mask with
  | [] => []
  | b :: mask' =>
      if b then i0 :: where_true mask' (S i0) else where_true mask' (S i0)
  end.

(** The right shift that brings a mantissa [m] at exponent [e] onto the
    grid of the format: what [shr_fexp] shifts by. *)
Definition shift_of (prec emax m e : Z) : Z :=
  Z.max 0 (fexp prec emax (Zdigits2 m + e) - e).

(** The dtypes of the arrays the module is used with. *)
Definition np_floating (t : dtype) : Prop := t = float32 \/ t = float64.

(** NaN, or a value whose sign bit is clear. *)
Definition nonneg_or_nan (x : float) : bool := is_nan x || sign_clear x.

(* ================================================================= *)
(** * Properties *)

(** ** Lists and masks *)

Lemma zip_with_length {A B C} (f : A -> B -> C) a b :
  length (Np.zip_with f a b) = Nat.min (length a) (length b).
Proof.
  unfold Np.zip_with. rewrite length_map. apply length_combine.
Qed.

Lemma zip_with_map_same {A B C D}
    (f : B -> C -> D) (g : A -> B) (h : A -> C) l :
  Np.zip_with f (map g l) (map h l) = map (fun x => f (g x) (h x)) l.
Proof.
  unfold Np.zip_with. induction l as [|x l IH]; simpl; [reflexivity|].
  now rewrite IH.
Qed.

Lemma drop_last_length {A} (l : list A) :
  length (Np.drop_last l) = pred (length l).
Proof.
  unfold Np.drop_last. rewrite removelast_firstn_len.
  rewrite length_firstn. lia.
Qed.

Lemma drop_last_firstn {A} (l : list A) k :
  length l = S k -> Np.drop_last l = firstn k l.
Proof.
  intros H. unfold Np.drop_last. rewrite removelast_firstn_len, H.
  reflexivity.
Qed.

Lemma getitem_mask_some {A} (a : list A) mask :
  length mask = length a -> Np.getitem_mask a mask = Some (Np.select mask a).
Proof.
  intros H. unfold Np.getitem_mask.
  now rewrite H, Nat.eqb_refl, orb_true_r.
Qed.

Lemma getitem_mask_empty {A} (a : list A) mask :
  length mask = 0 -> Np.getitem_mask a mask = Some [].
Proof.
  intros H. unfold Np.getitem_mask. rewrite H. simpl.
  destruct mask; [reflexivity | discriminate].
Qed.

Lemma getitem_mask_none {A} (a : list A) mask :
  length mask <> 0 -> length mask <> length a ->
  Np.getitem_mask a mask = None.
Proof.
  intros H0 H. unfold Np.getitem_mask.
  apply Nat.eqb_neq in H0. apply Nat.eqb_neq in H.
  now rewrite H0, H.
Qed.

(** The mask the function builds is the bulk test applied to each left
    edge. *)
Lemma bulk_mask_eq t bins :
  Np.multiply_bool
    (Np.less_equal_scalar (Np.drop_last bins) (scalar t (py_float_of_int 2)))
    (Np.greater_equal_scalar (Np.drop_last bins)
       (scalar t (SFopp (py_float_of_int 2))))
  = map (in_bulk t) (Np.drop_last bins).
Proof.
  unfold Np.multiply_bool, Np.less_equal_scalar, Np.greater_equal_scalar.
  now rewrite zip_with_map_same.
Qed.

(** What the function returns in terms of the mask, whenever the mask is
    empty or has the length of [counts]; an [IndexError] otherwise. *)
Lemma get_bulk_edge_values_eq {A} t (counts : list A) bins :
  let lefts := Np.drop_last bins in
  let m := map (in_bulk t) lefts in
  get_bulk_edge_values t counts bins =
    if Nat.eqb (length lefts) 0 || Nat.eqb (length lefts) (length counts)
    then Some (Np.select m counts, Np.select m lefts,
               Np.select (map negb m) counts, Np.select (map negb m) lefts)
    else None.
Proof.
  intros lefts m. unfold get_bulk_edge_values.
  rewrite bulk_mask_eq. fold lefts. fold m. unfold Np.invert.
  assert (Hm : length m = length lefts) by (unfold m; apply length_map).
  assert (Hm' : length (map negb m) = length lefts)
    by (now rewrite length_map).
  destruct (Nat.eqb (length lefts) 0) eqn:E0; simpl.
  - apply Nat.eqb_eq in E0.
    rewrite !getitem_mask_empty by congruence.
    destruct lefts; [reflexivity | discriminate].
  - apply Nat.eqb_neq in E0.
    destruct (Nat.eqb (length lefts) (length counts)) eqn:E.
    + apply Nat.eqb_eq in E.
      rewrite !getitem_mask_some by congruence. reflexivity.
    + apply Nat.eqb_neq in E.
      rewrite getitem_mask_none by congruence. reflexivity.
Qed.

(** ** get_bulk_edge_values *)

(** C3. For [counts] of length [k] and [bins] of length [k + 1] the bulk
    mask is, at every left edge [bins[i]], [i < k], the conjunction
    [(bins[i] <= 2.0) AND (bins[i] >= -2.0)], the tail mask is its negation,
    and the function returns, in this order, the bulk counts, the bulk left
    edges, the tail counts and the tail left edges.  On
    [counts = [1,2,3,4]], [bins = [-3,-1,0,1,3]] it returns [[2,3,4]],
    [[-1,0,1]], [[1]] and [[-3]]. *)
Theorem get_bulk_edge_values_masks :
  (forall (A : Type) (t : dtype) (counts : list A) (bins : list float)
          (k : nat),
      length counts = k ->
      length bins = S k ->
      exists bulk_mask tails_mask : list bool,
        length bulk_mask = k /\
        (forall i, i < k ->
           nth i bulk_mask false =
             fle (nth i bins nan) (scalar t (py_float_of_int 2)) &&
             fge (nth i bins nan) (scalar t (SFopp (py_float_of_int 2)))) /\
        tails_mask = map negb bulk_mask /\
        get_bulk_edge_values t counts bins =
          Some (Np.select bulk_mask counts,
                Np.select bulk_mask (firstn k bins),
                Np.select tails_mask counts,
                Np.select tails_mask (firstn k bins))) /\
  get_bulk_edge_values float64 [1; 2; 3; 4]%Z
      (map py_float_of_int [-3; -1; 0; 1; 3]%Z) =
    Some ([2; 3; 4]%Z, map py_float_of_int [-1; 0; 1]%Z,
          [1]%Z, map py_float_of_int [-3]%Z).
Proof.
  split; [| vm_compute; reflexivity].
  intros A t counts bins k Hc Hb.
  exists (map (in_bulk t) (firstn k bins)).
  exists (map negb (map (in_bulk t) (firstn k bins))).
  assert (Hl : length (firstn k bins) = k) by (rewrite length_firstn; lia).
  repeat split.
  - now rewrite length_map.
  - intros i Hi.
    rewrite nth_indep with (d' := in_bulk t nan)
      by (rewrite length_map; lia).
    rewrite map_nth. unfold in_bulk.
    replace (nth i (firstn k bins) nan) with (nth i bins nan); [reflexivity|].
    rewrite <- (firstn_skipn k bins) at 1.
    rewrite app_nth1 by lia. reflexivity.
  - rewrite get_bulk_edge_values_eq.
    rewrite (drop_last_firstn bins Hb), Hl, Hc, Nat.eqb_refl, orb_true_r.
    reflexivity.
Qed.

Lemma get_bulk_edge_values_masks_witness :
  exists bulk_mask tails_mask : list bool,
    length bulk_mask = 2 /\
    (forall i, i < 2 ->
       nth i bulk_mask false =
         fle (nth i (map (of_Z float32) [-3; 1; 5]%Z) nan)
             (scalar float32 (py_float_of_int 2)) &&
         fge (nth i (map (of_Z float32) [-3; 1; 5]%Z) nan)
             (scalar float32 (SFopp (py_float_of_int 2)))) /\
    tails_mask = map negb bulk_mask /\
    get_bulk_edge_values float32 [7; 8]%Z (map (of_Z float32) [-3; 1; 5]%Z) =
      Some (Np.select bulk_mask [7; 8]%Z,
            Np.select bulk_mask (firstn 2 (map (of_Z float32) [-3; 1; 5]%Z)),
            Np.select tails_mask [7; 8]%Z,
            Np.select tails_mask (firstn 2 (map (of_Z float32) [-3; 1; 5]%Z))).
Proof.
  apply (proj1 get_bulk_edge_values_masks Z float32 [7; 8]%Z
           (map (of_Z float32) [-3; 1; 5]%Z) 2); reflexivity.
Defined.

(** C6 as stated fails: with three counts and two edges the mask has one
    entry and indexing [counts] with it raises. *)
Lemma get_bulk_edge_values_mismatch_raises :
  length (map py_float_of_int [0; 1]%Z) <> length [1; 2; 3]%Z + 1 /\
  get_bulk_edge_values float64 [1; 2; 3]%Z (map py_float_of_int [0; 1]%Z) =
    None.
Proof.
  split; [simpl; lia | vm_compute; reflexivity].
Qed.

(** C6, amended. When [len(bins) != len(counts) + 1] and [bins] has at
    least two elements, the function does not return: the mask has
    [len(bins) - 1] entries, at least one and not [len(counts)], and
    indexing [counts] with it raises [IndexError].  When [bins] has fewer
    than two elements the mask is empty, which is accepted on any array:
    four empty arrays are returned, whatever [counts] holds. *)
Theorem get_bulk_edge_values_mismatch :
  forall (A : Type) (t : dtype) (counts : list A) (bins : list float),
    length bins <> length counts + 1 ->
    (2 <= length bins -> get_bulk_edge_values t counts bins = None) /\
    (length bins <= 1 ->
     get_bulk_edge_values t counts bins = Some ([], [], [], [])).
Proof.
  intros A t counts bins H.
  rewrite get_bulk_edge_values_eq, drop_last_length.
  split; intros Hb.
  - replace (Nat.eqb (pred (length bins)) 0) with false
      by (symmetry; apply Nat.eqb_neq; lia).
    replace (Nat.eqb (pred (length bins)) (length counts)) with false
      by (symmetry; apply Nat.eqb_neq; lia).
    reflexivity.
  - replace (Nat.eqb (pred (length bins)) 0) with true
      by (symmetry; apply Nat.eqb_eq; lia).
    simpl.
    assert (Hl : Np.drop_last bins = []).
    { destruct bins as [|b [|b' bins]]; simpl in *; try reflexivity; lia. }
    rewrite Hl. reflexivity.
Qed.

Lemma get_bulk_edge_values_mismatch_witness :
  length (map py_float_of_int [0; 1]%Z) <> length [1; 2; 3]%Z + 1 /\
  get_bulk_edge_values float64 [1; 2; 3]%Z (map py_float_of_int [0; 1]%Z) =
    None /\
  length (map py_float_of_int [0]%Z) <> length [1; 2; 3]%Z + 1 /\
  get_bulk_edge_values float64 [1; 2; 3]%Z (map py_float_of_int [0]%Z) =
    Some ([], [], [], []).
Proof.
  assert (H2 : length (map py_float_of_int [0; 1]%Z) <>
               length [1; 2; 3]%Z + 1) by (simpl; lia).
  assert (H1 : length (map py_float_of_int [0]%Z) <>
               length [1; 2; 3]%Z + 1) by (simpl; lia).
  split; [exact H2|]. split.
  - apply (proj1 (@get_bulk_edge_values_mismatch Z float64 [1; 2; 3]%Z
                    (map py_float_of_int [0; 1]%Z) H2)).
    simpl. lia.
  - split; [exact H1|].
    apply (proj2 (@get_bulk_edge_values_mismatch Z float64 [1; 2; 3]%Z
                    (map py_float_of_int [0]%Z) H1)).
    simpl. lia.
Defined.

(** *** Positions selected by a mask *)

Lemma where_true_bounds mask i0 i :
  In i (where_true mask i0) -> i0 <= i < i0 + length mask.
Proof.
  revert i0. induction mask as [|b mask IH]; intros i0 H; simpl in *.
  - contradiction.
  - destruct b; simpl in H.
    + destruct H as [<- | H]; [lia | apply IH in H; lia].
    + apply IH in H; lia.
Qed.

Lemma where_true_nth mask i0 i :
  In i (where_true mask i0) <->
  i0 <= i < i0 + length mask /\ nth (i - i0) mask false = true.
Proof.
  revert i0. induction mask as [|b mask IH]; intros i0; simpl.
  - split; [contradiction | lia].
  - assert (Hstep : i0 < i -> i - i0 = S (i - S i0)) by lia.
    destruct b; simpl; rewrite ?IH; split.
    + intros [<- | [Hb Hn]].
      * rewrite Nat.sub_diag. split; [lia | reflexivity].
      * rewrite Hstep by lia. split; [lia | exact Hn].
    + intros [Hb Hn].
      destruct (Nat.eq_dec i0 i) as [-> | Hne]; [now left | right].
      rewrite Hstep in Hn by lia. split; [lia | exact Hn].
    + intros [Hb Hn]. rewrite Hstep by lia. split; [lia | exact Hn].
    + intros [Hb Hn].
      destruct (Nat.eq_dec i0 i) as [-> | Hne].
      * rewrite Nat.sub_diag in Hn. discriminate.
      * rewrite Hstep in Hn by lia. split; [lia | exact Hn].
Qed.

Lemma where_true_sorted mask i0 :
  StronglySorted lt (where_true mask i0).
Proof.
  revert i0. induction mask as [|b mask IH]; intros i0; simpl.
  - constructor.
  - destruct b; [|apply IH].
    constructor; [apply IH|].
    apply Forall_forall. intros i Hi. apply where_true_bounds in Hi. lia.
Qed.

Lemma where_true_length {A} mask (a : list A) i0 :
  length mask = length a ->
  length (where_true mask i0) = length (Np.select mask a).
Proof.
  revert a i0. induction mask as [|b mask IH]; intros [|x a] i0 H;
    simpl in *; try discriminate; [reflexivity|].
  injection H as H.
  destruct b; simpl; rewrite (IH a (S i0) H); reflexivity.
Qed.

(** The [j]-th selected element sits in [a] at the [j]-th selected
    position. *)
Lemma select_where_true {A} mask (a : list A) pre :
  length mask = length a ->
  Forall2 (fun i x => nth_error (pre ++ a) i = Some x)
          (where_true mask (length pre)) (Np.select mask a).
Proof.
  revert a pre. induction mask as [|b mask IH]; intros [|x a] pre H;
    simpl in *; try discriminate; [constructor|].
  assert (IH' := IH a (pre ++ [x])).
  rewrite length_app, Nat.add_1_r, <- app_assoc in IH'. simpl in IH'.
  destruct b.
  - constructor; [|apply IH'; lia].
    rewrite nth_error_app2, Nat.sub_diag by lia. reflexivity.
  - apply IH'. lia.
Qed.

Lemma select_length_split {A} mask (a : list A) :
  length mask = length a ->
  length (Np.select mask a) + length (Np.select (map negb mask) a) = length a.
Proof.
  revert a. induction mask as [|b mask IH]; intros [|x a] H;
    simpl in *; try discriminate; [reflexivity|].
  specialize (IH a). destruct b; simpl; lia.
Qed.

Lemma select_length_same {A B} mask (a : list A) (b : list B) :
  length mask = length a -> length mask = length b ->
  length (Np.select mask a) = length (Np.select mask b).
Proof.
  intros Ha Hb.
  now rewrite <- (where_true_length mask a 0 Ha),
              <- (where_true_length mask b 0 Hb).
Qed.

Lemma nth_error_firstn_lt {A} (l : list A) k i x :
  nth_error (firstn k l) i = Some x -> nth_error l i = Some x.
Proof.
  revert l i. induction k as [|k IH]; intros [|y l] [|i]; simpl;
    try discriminate; auto.
Qed.

(** C10. For [counts] of length [k] and [bins] of length [k + 1] the four
    arrays returned keep the pairing and the order of the input:
    [bulk_rho] and [bulk_lambdas] have one length, so have [tails_rho] and
    [tails_lambdas], the bulk and tail lengths add up to [k], and there are
    strictly increasing index sequences [is] (bulk) and [js] (tails),
    together covering each index below [k] exactly once, such that
    [bulk_rho[j] = counts[is[j]]] and [bulk_lambdas[j] = bins[is[j]]], and
    likewise for the tails along [js]. *)
Theorem get_bulk_edge_values_pairing :
  forall (A : Type) (t : dtype) (counts : list A) (bins : list float) (k : nat),
    length counts = k ->
    length bins = S k ->
    exists bulk_rho bulk_lambdas tails_rho tails_lambdas,
      get_bulk_edge_values t counts bins =
        Some (bulk_rho, bulk_lambdas, tails_rho, tails_lambdas) /\
      length bulk_rho = length bulk_lambdas /\
      length tails_rho = length tails_lambdas /\
      length bulk_rho + length tails_rho = k /\
      exists indices_bulk indices_tails : list nat,
        StronglySorted lt indices_bulk /\
        StronglySorted lt indices_tails /\
        (forall i, i < k <-> In i indices_bulk \/ In i indices_tails) /\
        (forall i, ~ (In i indices_bulk /\ In i indices_tails)) /\
        Forall2 (fun i x => nth_error counts i = Some x)
                indices_bulk bulk_rho /\
        Forall2 (fun i x => nth_error bins i = Some x)
                indices_bulk bulk_lambdas /\
        Forall2 (fun i x => nth_error counts i = Some x)
                indices_tails tails_rho /\
        Forall2 (fun i x => nth_error bins i = Some x)
                indices_tails tails_lambdas.
Proof.
  intros A t counts bins k Hc Hb.
  pose (lefts := firstn k bins).
  pose (m := map (in_bulk t) lefts).
  assert (Hl : length lefts = k) by (unfold lefts; rewrite length_firstn; lia).
  assert (Hm : length m = k) by (unfold m; now rewrite length_map).
  assert (Hm' : length (map negb m) = k) by now rewrite length_map.
  exists (Np.select m counts), (Np.select m lefts),
         (Np.select (map negb m) counts), (Np.select (map negb m) lefts).
  split.
  { rewrite get_bulk_edge_values_eq, (drop_last_firstn bins Hb).
    fold lefts. rewrite Hl, Hc, Nat.eqb_refl, orb_true_r. reflexivity. }
  split; [apply select_length_same; congruence|].
  split; [apply select_length_same; congruence|].
  split; [rewrite select_length_split; congruence|].
  exists (where_true m 0), (where_true (map negb m) 0).
  split; [apply where_true_sorted|].
  split; [apply where_true_sorted|].
  split.
  { intros i. rewrite !where_true_nth, Hm, Hm', Nat.sub_0_r.
    split.
    - intros Hi.
      rewrite nth_indep with (d' := negb true) (l := map negb m) by lia.
      rewrite map_nth.
      destruct (nth i m true) eqn:E.
      + left. split; [lia|].
        rewrite nth_indep with (d' := true) by lia. exact E.
      + right. split; [lia | reflexivity].
    - intros [[H _] | [H _]]; lia. }
  split.
  { intros i. rewrite !where_true_nth, Hm, Hm', Nat.sub_0_r.
    intros [[H1 E1] [H2 E2]].
    rewrite nth_indep with (d' := negb false) (l := map negb m) in E2 by lia.
    rewrite map_nth, E1 in E2. discriminate. }
  assert (Hfirst : forall mask, length mask = k ->
            Forall2 (fun i x => nth_error bins i = Some x)
                    (where_true mask 0) (Np.select mask lefts)).
  { intros mask Hk.
    eapply Forall2_impl;
      [| apply (select_where_true mask lefts []); congruence].
    simpl. intros i x. apply nth_error_firstn_lt. }
  repeat split.
  - apply (select_where_true m counts []); congruence.
  - apply Hfirst, Hm.
  - apply (select_where_true (map negb m) counts []); congruence.
  - apply Hfirst, Hm'.
Qed.

Lemma get_bulk_edge_values_pairing_witness :
  exists bulk_rho bulk_lambdas tails_rho tails_lambdas,
    get_bulk_edge_values float64 [1; 2; 3; 4]%Z
        (map py_float_of_int [-3; -1; 0; 1; 3]%Z) =
      Some (bulk_rho, bulk_lambdas, tails_rho, tails_lambdas) /\
    length bulk_rho = length bulk_lambdas /\
    length tails_rho = length tails_lambdas /\
    length bulk_rho + length tails_rho = 4 /\
    exists indices_bulk indices_tails : list nat,
      StronglySorted lt indices_bulk /\
      StronglySorted lt indices_tails /\
      (forall i, i < 4 <-> In i indices_bulk \/ In i indices_tails) /\
      (forall i, ~ (In i indices_bulk /\ In i indices_tails)) /\
      Forall2 (fun i x => nth_error [1; 2; 3; 4]%Z i = Some x)
              indices_bulk bulk_rho /\
      Forall2 (fun i x =>
                 nth_error (map py_float_of_int [-3; -1; 0; 1; 3]%Z) i = Some x)
              indices_bulk bulk_lambdas /\
      Forall2 (fun i x => nth_error [1; 2; 3; 4]%Z i = Some x)
              indices_tails tails_rho /\
      Forall2 (fun i x =>
                 nth_error (map py_float_of_int [-3; -1; 0; 1; 3]%Z) i = Some x)
              indices_tails tails_lambdas.
Proof.
  apply (@get_bulk_edge_values_pairing Z float64 [1; 2; 3; 4]%Z
           (map py_float_of_int [-3; -1; 0; 1; 3]%Z) 4); reflexivity.
Defined.

(** ** rmse *)

Lemma zip_with_nth {A B C} (f : A -> B -> C) a b da db :
  length a = length b ->
  Np.zip_with f a b =
    map (fun i => f (nth i a da) (nth i b db)) (seq 0 (length a)).
Proof.
  unfold Np.zip_with. revert b.
  induction a as [|x a IH]; intros [|y b] H; simpl in *;
    try discriminate; [reflexivity|].
  f_equal. rewrite IH by congruence.
  rewrite <- seq_shift, map_map. reflexivity.
Qed.

Lemma subtract_same_length t a b :
  length a = length b ->
  Np.subtract t a b = Some (Np.zip_with (fsub t) a b).
Proof.
  intros H. unfold Np.subtract, Np.broadcast.
  now rewrite H, Nat.eqb_refl.
Qed.

Lemma rmse_same_length t a b :
  length a = length b -> rmse t a b = Some (rmse_spec t a b).
Proof.
  intros H. unfold rmse, rmse_spec.
  rewrite (subtract_same_length t a b H). simpl.
  unfold Np.square.
  rewrite (zip_with_nth (fsub t) a b nan nan H), map_map.
  reflexivity.
Qed.

(** C5 as stated fails: a one-element array is broadcast against a
    three-element one and a value comes back, here [sqrt(5/3)]. *)
Lemma rmse_broadcasts_single_element :
  length (map py_float_of_int [1]%Z) <>
    length (map py_float_of_int [1; 2; 3]%Z) /\
  rmse float64 (map py_float_of_int [1]%Z) (map py_float_of_int [1; 2; 3]%Z) =
    Some (S754_finite false 5814122118263953 (-52)).
Proof.
  split; [simpl; lia | vm_compute; reflexivity].
Qed.

(** C5, amended. On two one-dimensional arrays of unequal lengths [rmse]
    fails with a shape (broadcast) error exactly when neither array has
    length 1.  When one array has a single element, that element is
    broadcast against the other array and the root-mean-square error of the
    stretched pair is returned.  Nothing is ever truncated. *)
Theorem rmse_unequal_lengths :
  forall (t : dtype) (numerical expected : list float),
    length numerical <> length expected ->
    (rmse t numerical expected = None <->
       length numerical <> 1 /\ length expected <> 1) /\
    (forall x, numerical = [x] ->
       rmse t numerical expected =
         Some (rmse_spec t (repeat x (length expected)) expected)) /\
    (forall y, expected = [y] ->
       rmse t numerical expected =
         Some (rmse_spec t numerical (repeat y (length numerical)))).
Proof.
  intros t a b H.
  assert (Hrep1 : forall x, map (fsub t x) b =
                    Np.zip_with (fsub t) (repeat x (length b)) b).
  { intros x. unfold Np.zip_with. clear H.
    induction b as [|y b' IH]; simpl; [reflexivity|]. now f_equal. }
  assert (Hrep2 : forall y, map (fun x => fsub t x y) a =
                    Np.zip_with (fsub t) a (repeat y (length a))).
  { intros y. unfold Np.zip_with. clear H Hrep1.
    induction a as [|x a' IH]; simpl; [reflexivity|]. now f_equal. }
  assert (Hbc1 : forall x, a = [x] ->
            Np.subtract t a b = Some (map (fsub t x) b)).
  { intros x ->. unfold Np.subtract, Np.broadcast.
    apply Nat.eqb_neq in H. now rewrite H. }
  assert (Hbc2 : forall y, b = [y] ->
            Np.subtract t a b = Some (map (fun x => fsub t x y) a)).
  { intros y ->. unfold Np.subtract, Np.broadcast.
    apply Nat.eqb_neq in H. rewrite H.
    destruct a as [|x [|x' a']]; reflexivity. }
  split; [|split].
  - unfold rmse, Np.subtract, Np.broadcast.
    apply Nat.eqb_neq in H. rewrite H.
    destruct a as [|x [|x' a']], b as [|y [|y' b']]; simpl;
      split; try discriminate; try (intros [? ?]; congruence);
      try (intros _; split; discriminate); try reflexivity.
  - intros x Hx.
    rewrite <- rmse_same_length by now rewrite repeat_length.
    unfold rmse. rewrite (Hbc1 x Hx), Hrep1.
    rewrite subtract_same_length by now rewrite repeat_length.
    reflexivity.
  - intros y Hy.
    rewrite <- rmse_same_length by now rewrite repeat_length.
    unfold rmse. rewrite (Hbc2 y Hy), Hrep2.
    rewrite subtract_same_length by now rewrite repeat_length.
    reflexivity.
Qed.

Lemma rmse_unequal_lengths_witness :
  length (map py_float_of_int [1]%Z) <>
    length (map py_float_of_int [1; 2; 3]%Z) /\
  (rmse float64 (map py_float_of_int [1]%Z)
        (map py_float_of_int [1; 2; 3]%Z) = None <->
     length (map py_float_of_int [1]%Z) <> 1 /\
     length (map py_float_of_int [1; 2; 3]%Z) <> 1).
Proof.
  assert (H : length (map py_float_of_int [1]%Z) <>
              length (map py_float_of_int [1; 2; 3]%Z)) by (simpl; lia).
  split; [exact H|].
  exact (proj1 (rmse_unequal_lengths float64 (map py_float_of_int [1]%Z)
                  (map py_float_of_int [1; 2; 3]%Z) H)).
Defined.

(** ** rm_sampling *)

Lemma array2_uniform (N : nat) (rows : list (list float)) :
  Forall (fun r => length r = N) rows -> Np.array2 rows = Some rows.
Proof.
  intros H. destruct rows as [|r rest]; [reflexivity|].
  simpl. inversion H as [|? ? Hr Hrest]; subst.
  replace (forallb _ rest) with true; [reflexivity|].
  symmetry. apply forallb_forall. intros r' Hin.
  rewrite Forall_forall in Hrest. apply Nat.eqb_eq. now apply Hrest.
Qed.

Lemma concat_length_uniform {A} (N : nat) (rows : list (list A)) :
  Forall (fun r => length r = N) rows ->
  length (concat rows) = length rows * N.
Proof.
  induction 1 as [|r rows Hr _ IH]; simpl; [reflexivity|].
  rewrite length_app, IH, Hr. reflexivity.
Qed.

Lemma has_shape_ncols N X : has_shape N N X -> Np.ncols X = N.
Proof.
  intros [Hlen Hrows]. destruct X as [|r X]; simpl in *; [exact Hlen|].
  now inversion Hrows.
Qed.

Lemma has_shape_row r c X i :
  has_shape r c X -> i < r -> length (nth i X []) = c.
Proof.
  intros [Hlen Hrows] Hi. rewrite Forall_forall in Hrows.
  apply Hrows, nth_In. lia.
Qed.

Lemma nth_map_seq {A} (f : nat -> A) n i d :
  i < n -> nth i (map f (seq 0 n)) d = f i.
Proof.
  intros Hi.
  rewrite nth_indep with (d' := f 0)
    by (rewrite length_map, length_seq; lia).
  rewrite map_nth, seq_nth by lia. reflexivity.
Qed.

Lemma column_nth j X i :
  nth i (Np.column j X) pzero = nth j (nth i X []) pzero.
Proof.
  unfold Np.column. revert i.
  induction X as [|r X IH]; intros [|i]; simpl;
    try (destruct j; reflexivity); auto.
Qed.

Lemma same_shape_transpose N X :
  has_shape N N X -> Np.same_shape X (Np.transpose X) = true.
Proof.
  intros HX. unfold Np.same_shape, Np.transpose.
  rewrite (has_shape_ncols HX), length_map, length_seq.
  destruct HX as [Hlen Hrows]. rewrite Hlen, Nat.eqb_refl. simpl.
  apply forallb_forall. intros [r c] Hin. simpl.
  apply Nat.eqb_eq.
  assert (Hr := in_combine_l _ _ _ _ Hin).
  assert (Hc := in_combine_r _ _ _ _ Hin).
  rewrite Forall_forall in Hrows. rewrite (Hrows r Hr).
  apply in_map_iff in Hc. destruct Hc as [j [<- _]].
  unfold Np.column. now rewrite length_map.
Qed.

Section SamplingProperties.
Variable RNG : Type.
Variable rng_normal : float -> nat -> nat -> RNG -> Np.matrix * RNG.
Variable eigvalsh : Np.matrix -> list float.
Variable float_pow : float -> float -> float.

(** [rng.normal(size=(r, c))] returns an [r] by [c] matrix. *)
Hypothesis normal_shape :
  forall sigma r c rng, has_shape r c (fst (rng_normal sigma r c rng)).

(** [eigvalsh] returns as many eigenvalues as the matrix has rows. *)
Hypothesis eigvalsh_length :
  forall N X, has_shape N N X -> length (eigvalsh X) = N.

(** [2 ** 0.5] is the correctly rounded square root of two. *)
Hypothesis pow_half :
  float_pow (py_float_of_int 2) py_half = fsqrt float64 (py_float_of_int 2).

Lemma Xs_spec_shape N X : has_shape N N (Xs_spec N X).
Proof.
  unfold Xs_spec. split.
  - now rewrite length_map, length_seq.
  - apply Forall_forall. intros r Hr.
    apply in_map_iff in Hr. destruct Hr as [i [<- _]].
    now rewrite length_map, length_seq.
Qed.

Lemma symmetrise_eq N X :
  has_shape N N X -> symmetrise float_pow X = Some (Xs_spec N X).
Proof.
  intros HX. unfold symmetrise, Np.add2.
  rewrite (same_shape_transpose HX). unfold Np.bind.
  rewrite pow_half. f_equal.
  assert (HlenX : length X = N) by apply HX.
  assert (HlenT : length (Np.transpose X) = N).
  { unfold Np.transpose.
    now rewrite length_map, length_seq, (has_shape_ncols HX). }
  rewrite (zip_with_nth (Np.zip_with (fadd float64)) X (Np.transpose X) [] [])
    by congruence.
  unfold Np.divide_scalar2, Xs_spec. rewrite map_map, HlenX.
  apply map_ext_in. intros i Hi. apply in_seq in Hi.
  assert (Hrow : length (nth i X []) = N) by (apply (has_shape_row HX); lia).
  assert (HrowT : nth i (Np.transpose X) [] = Np.column i X).
  { unfold Np.transpose. rewrite (has_shape_ncols HX).
    apply (@nth_map_seq _ (fun j => Np.column j X) N i []). lia. }
  rewrite HrowT.
  rewrite (zip_with_nth (fadd float64) (nth i X []) (Np.column i X) pzero pzero)
    by (unfold Np.column; rewrite length_map; congruence).
  unfold Np.divide_scalar. rewrite map_map, Hrow.
  apply map_ext. intros j. unfold entry.
  now rewrite column_nth.
Qed.

Lemma sampling_loop_eq n N sigma acc rng :
  sampling_loop rng_normal eigvalsh float_pow n N sigma acc rng =
    Some (acc ++ map (fun X => map (astype float32) (eigvalsh (Xs_spec N X)))
                     (fst (draws rng_normal n N sigma rng)),
          snd (draws rng_normal n N sigma rng)).
Proof.
  revert acc rng. induction n as [|n IH]; intros acc rng; simpl.
  - now rewrite app_nil_r.
  - assert (HX := normal_shape sigma N N rng).
    destruct (rng_normal sigma N N rng) as [X rng1]. simpl in HX.
    rewrite (symmetrise_eq HX). simpl.
    rewrite IH.
    destruct (draws rng_normal n N sigma rng1) as [Xs rng2]. simpl.
    now rewrite <- app_assoc.
Qed.

Lemma draws_length n N sigma rng :
  length (fst (draws rng_normal n N sigma rng)) = n.
Proof.
  revert rng. induction n as [|n IH]; intros rng; simpl; [reflexivity|].
  destruct (rng_normal sigma N N rng) as [X rng1].
  specialize (IH rng1).
  destruct (draws rng_normal n N sigma rng1) as [Xs rng2]. simpl in *.
  now rewrite IH.
Qed.

Lemma rm_sampling_eq n N rng :
  0 < N ->
  rm_sampling rng_normal eigvalsh float_pow n N rng =
    Some (rm_sampling_spec rng_normal eigvalsh float_pow n N rng).
Proof.
  intros HN. unfold rm_sampling, rm_sampling_spec.
  destruct N as [|N']; [lia|].
  set (N := S N'). set (sigma := float_pow _ _).
  rewrite sampling_loop_eq. simpl.
  destruct (draws rng_normal n N sigma rng) as [Xs rng'] eqn:E. simpl.
  rewrite (@array2_uniform N).
  - reflexivity.
  - apply Forall_forall. intros r Hr.
    apply in_map_iff in Hr. destruct Hr as [X [<- _]].
    rewrite length_map. apply eigvalsh_length, Xs_spec_shape.
Qed.

Lemma rm_sampling_spec_length n N rng :
  length (fst (rm_sampling_spec rng_normal eigvalsh float_pow n N rng)) = n * N.
Proof.
  unfold rm_sampling_spec.
  set (sigma := float_pow _ _).
  assert (Hlen := draws_length n N sigma rng).
  destruct (draws rng_normal n N sigma rng) as [Xs rng']. simpl in *.
  rewrite (@concat_length_uniform _ N).
  - now rewrite length_map, Hlen.
  - apply Forall_forall. intros r Hr.
    apply in_map_iff in Hr. destruct Hr as [X [<- _]].
    rewrite length_map. apply eigvalsh_length, Xs_spec_shape.
Qed.

(** C1. For [n_samples > 0], [N > 0] and any generator state,
    [rm_sampling] returns the concatenation, over the [n_samples]
    iterations in order, of the eigenvalues cast to 32-bit floats of
    [Xs = (X + X^T) / sqrt(2)], where each [X] is the [N] by [N] matrix
    the supplied generator draws with scale [sigma = N^(-1/2)]; the
    generator is left in the state after the last draw. *)
Theorem rm_sampling_concatenates :
  forall (n_samples N : nat) (rng : RNG),
    0 < n_samples ->
    0 < N ->
    rm_sampling rng_normal eigvalsh float_pow n_samples N rng =
      Some (rm_sampling_spec rng_normal eigvalsh float_pow n_samples N rng).
Proof.
  intros n N rng _ HN. now apply rm_sampling_eq.
Qed.

(** C2. For [n_samples > 0] and [N > 0], [rm_sampling] returns a flat
    array of [n_samples * N] values, each one the result of a cast to
    float32; [rm_sampling(1, 2, rng)] returns 2 values and
    [rm_sampling(5, 3, rng)] returns 15. *)
Theorem rm_sampling_length :
  (forall (n_samples N : nat) (rng : RNG),
      0 < n_samples ->
      0 < N ->
      exists lambdas rng',
        rm_sampling rng_normal eigvalsh float_pow n_samples N rng =
          Some (lambdas, rng') /\
        length lambdas = n_samples * N /\
        exists values, lambdas = map (astype float32) values) /\
  (forall rng, exists lambdas rng',
      rm_sampling rng_normal eigvalsh float_pow 1 2 rng =
        Some (lambdas, rng') /\
      length lambdas = 2) /\
  (forall rng, exists lambdas rng',
      rm_sampling rng_normal eigvalsh float_pow 5 3 rng =
        Some (lambdas, rng') /\
      length lambdas = 15).
Proof.
  assert (Hgen : forall n N rng, 0 < N ->
            exists lambdas rng',
              rm_sampling rng_normal eigvalsh float_pow n N rng =
                Some (lambdas, rng') /\
              length lambdas = n * N /\
              exists values, lambdas = map (astype float32) values).
  { intros n N rng HN.
    exists (fst (rm_sampling_spec rng_normal eigvalsh float_pow n N rng)),
           (snd (rm_sampling_spec rng_normal eigvalsh float_pow n N rng)).
    split.
    { rewrite rm_sampling_eq by exact HN.
      now rewrite <- surjective_pairing. }
    split; [apply rm_sampling_spec_length|].
    unfold rm_sampling_spec.
    destruct (draws rng_normal n N _ rng) as [Xs rng']. simpl.
    exists (concat (map (fun X => eigvalsh (Xs_spec N X)) Xs)).
    rewrite concat_map, map_map. reflexivity. }
  split; [|split].
  - intros n N rng _ HN. now apply Hgen.
  - intros rng. destruct (Hgen 1 2 rng) as (l & r & H1 & H2 & _); [lia|].
    now exists l, r.
  - intros rng. destruct (Hgen 5 3 rng) as (l & r & H1 & H2 & _); [lia|].
    now exists l, r.
Qed.
End SamplingProperties.

Lemma demo_normal_shape sigma r c rng :
  has_shape r c (fst (demo_normal sigma r c rng)).
Proof.
  unfold demo_normal, has_shape. simpl. split; [apply repeat_length|].
  apply Forall_forall. intros row Hrow.
  apply repeat_spec in Hrow. subst. apply repeat_length.
Qed.

Lemma demo_eigvalsh_length N X :
  has_shape N N X -> length (demo_eigvalsh X) = N.
Proof.
  intros [Hlen _]. unfold demo_eigvalsh.
  now rewrite length_map, length_seq.
Qed.

Lemma demo_pow_half :
  demo_pow (py_float_of_int 2) py_half = fsqrt float64 (py_float_of_int 2).
Proof. reflexivity. Qed.

Lemma rm_sampling_concatenates_witness :
  rm_sampling demo_normal demo_eigvalsh demo_pow 2 1 0 =
    Some (rm_sampling_spec demo_normal demo_eigvalsh demo_pow 2 1 0).
Proof.
  apply (@rm_sampling_concatenates nat demo_normal demo_eigvalsh demo_pow
           demo_normal_shape demo_eigvalsh_length demo_pow_half 2 1 0); lia.
Defined.

Lemma rm_sampling_length_witness :
  exists lambdas rng',
    rm_sampling demo_normal demo_eigvalsh demo_pow 5 3 0 =
      Some (lambdas, rng') /\
    length lambdas = 5 * 3 /\
    exists values, lambdas = map (astype float32) values.
Proof.
  apply (proj1 (@rm_sampling_length nat demo_normal demo_eigvalsh demo_pow
                  demo_normal_shape demo_eigvalsh_length demo_pow_half)); lia.
Defined.

(** ** Rounding in [SpecFloat] *)

Section RoundingFacts.
Local Open Scope Z_scope.
Variables prec emax : Z.
Hypothesis prec_pos : 0 < prec.

Lemma digits2_pos_size p : digits2_pos p = Pos.size p.
Proof. induction p; simpl; congruence. Qed.

Lemma Zdigits2_log2 m : 0 < m -> Zdigits2 m = Z.log2 m + 1.
Proof.
  destruct m as [|p|p]; try lia. intros _.
  simpl. rewrite digits2_pos_size.
  destruct p; simpl; rewrite ?Pos.add_1_r; reflexivity.
Qed.

Lemma iter_pos_nat {A} (f : A -> A) p x :
  iter_pos f p x = Nat.iter (Pos.to_nat p) f x.
Proof.
  revert x. induction p as [p IH|p IH|]; intros x.
  - rewrite Pos2Nat.inj_xI. cbn [iter_pos]. rewrite !IH.
    replace (S (2 * Pos.to_nat p))%nat
      with (Pos.to_nat p + (Pos.to_nat p + 1))%nat by lia.
    rewrite !Nat.iter_add. reflexivity.
  - rewrite Pos2Nat.inj_xO. cbn [iter_pos]. rewrite !IH.
    replace (2 * Pos.to_nat p)%nat
      with (Pos.to_nat p + Pos.to_nat p)%nat by lia.
    rewrite Nat.iter_add. reflexivity.
  - reflexivity.
Qed.

Lemma shr_1_m mrs :
  0 <= shr_m mrs -> shr_m (shr_1 mrs) = shr_m mrs / 2.
Proof.
  destruct mrs as [m r s]. simpl. intros H.
  rewrite <- Z.div2_div.
  destruct m as [|[p|p|]|p]; try reflexivity; lia.
Qed.

Lemma shr_iter_m n mrs :
  0 <= shr_m mrs ->
  shr_m (Nat.iter n shr_1 mrs) = shr_m mrs / 2 ^ Z.of_nat n.
Proof.
  intros H. induction n as [|n IH].
  - simpl. now rewrite Z.div_1_r.
  - rewrite Nat2Z.inj_succ, Z.pow_succ_r by lia.
    rewrite Nat.iter_succ.
    assert (Hp : 0 < 2 ^ Z.of_nat n) by (apply Z.pow_pos_nonneg; lia).
    rewrite shr_1_m; rewrite IH.
    + rewrite Z.div_div by lia. f_equal. lia.
    + apply Z.div_pos; lia.
Qed.

Lemma shr_spec mrs e k :
  0 <= shr_m mrs ->
  shr_m (fst (shr mrs e k)) = shr_m mrs / 2 ^ Z.max 0 k /\
  snd (shr mrs e k) = e + Z.max 0 k.
Proof.
  intros H. destruct k as [|p|p]; simpl.
  - rewrite Z.div_1_r. split; [reflexivity | lia].
  - rewrite iter_pos_nat, shr_iter_m, positive_nat_Z by exact H.
    split; reflexivity.
  - rewrite Z.div_1_r. split; [reflexivity | lia].
Qed.

Lemma shr_record_of_loc_m m l : shr_m (shr_record_of_loc m l) = m.
Proof. destruct l as [|[]]; reflexivity. Qed.

Lemma shr_fexp_spec m e l :
  0 <= m ->
  shr_m (fst (shr_fexp prec emax m e l)) = m / 2 ^ shift_of prec emax m e /\
  snd (shr_fexp prec emax m e l) = e + shift_of prec emax m e.
Proof.
  intros H. unfold shr_fexp, shift_of.
  rewrite <- (shr_record_of_loc_m m l) at 3.
  apply shr_spec. now rewrite shr_record_of_loc_m.
Qed.

Lemma round_nearest_even_bounds m l :
  m <= round_nearest_even m l <= m + 1.
Proof.
  destruct l as [|[]]; simpl; try lia.
  destruct (Z.even m); lia.
Qed.

(** [binary_round_aux] on a positive mantissa: shift, round to an
    adjacent integer, shift again (at most a carry), then test for
    overflow. *)
Lemma binary_round_aux_spec s m e l :
  0 <= m ->
  exists m2,
    m / 2 ^ shift_of prec emax m e <= m2
      <= m / 2 ^ shift_of prec emax m e + 1 /\
    let e1 := e + shift_of prec emax m e in
    let m3 := m2 / 2 ^ shift_of prec emax m2 e1 in
    let e3 := e1 + shift_of prec emax m2 e1 in
    binary_round_aux prec emax s m e l =
      match m3 with
      | Z0 => S754_zero s
      | Zpos p =>
          if e3 <=? emax - prec then S754_finite s p e3 else S754_infinity s
      | Zneg _ => S754_nan
      end.
Proof.
  intros Hm. unfold binary_round_aux.
  destruct (@shr_fexp_spec m e l) as [Hm1 He1]; [lia|].
  destruct (shr_fexp prec emax m e l) as [mrs1 e1]. simpl in Hm1, He1.
  set (m2 := round_nearest_even (shr_m mrs1) (loc_of_shr_record mrs1)).
  assert (Hm2 := round_nearest_even_bounds (shr_m mrs1)
                   (loc_of_shr_record mrs1)).
  fold m2 in Hm2. rewrite Hm1 in Hm2.
  exists m2. split; [exact Hm2|].
  assert (0 <= m / 2 ^ shift_of prec emax m e).
  { apply Z.div_pos; [lia | apply Z.pow_pos_nonneg; unfold shift_of; lia]. }
  destruct (@shr_fexp_spec m2 e1 loc_Exact) as [Hm3 He3]; [lia|].
  destruct (shr_fexp prec emax m2 e1 loc_Exact) as [mrs3 e3].
  simpl in Hm3, He3. subst e1 e3. rewrite Hm3. reflexivity.
Qed.

Lemma emin_le_fexp x : emin prec emax <= fexp prec emax x.
Proof. unfold fexp. lia. Qed.

Lemma pow2_le_of_digits m :
  0 < m -> 2 ^ (Zdigits2 m - 1) <= m < 2 ^ Zdigits2 m.
Proof.
  intros H. rewrite (@Zdigits2_log2 m H).
  replace (Z.log2 m + 1 - 1) with (Z.log2 m) by lia.
  apply Z.log2_spec, H.
Qed.

Lemma shift_stage_pos m e :
  0 < m -> emin prec emax <= e ->
  0 < m / 2 ^ shift_of prec emax m e /\
  emin prec emax <= e + shift_of prec emax m e.
Proof.
  intros Hm He. split; [|unfold shift_of; lia].
  assert (Hk : 0 <= shift_of prec emax m e <= Zdigits2 m - 1).
  { unfold shift_of, fexp. rewrite (@Zdigits2_log2 m Hm).
    pose proof (Z.log2_nonneg m). lia. }
  destruct (@pow2_le_of_digits m Hm) as [Hlow _].
  apply Z.div_str_pos. split; [apply Z.pow_pos_nonneg; lia|].
  apply Z.le_trans with (2 ^ (Zdigits2 m - 1)); [|exact Hlow].
  apply Z.pow_le_mono_r; lia.
Qed.

(** A positive mantissa at an exponent not below [emin] never rounds to
    zero. *)
Lemma binary_round_aux_nonzero s m e l :
  0 < m -> emin prec emax <= e ->
  binary_round_aux prec emax s m e l = S754_infinity s \/
  exists p e', binary_round_aux prec emax s m e l = S754_finite s p e'.
Proof.
  intros Hm He.
  destruct (@binary_round_aux_spec s m e l (Z.lt_le_incl _ _ Hm))
    as [m2 [Hm2 Heq]].
  destruct (@shift_stage_pos m e Hm He) as [Hm1 He1].
  assert (Hm2pos : 0 < m2) by lia.
  destruct (@shift_stage_pos m2 _ Hm2pos He1) as [Hm3 _].
  cbv zeta in Heq. rewrite Heq.
  destruct (m2 / 2 ^ shift_of prec emax m2 (e + shift_of prec emax m e))
    as [|p|p]; try lia.
  destruct (_ <=? _); [right; eauto | now left].
Qed.

Lemma binary_round_nonzero s p e :
  emin prec emax <= e ->
  binary_round prec emax s p e = S754_infinity s \/
  exists p' e', binary_round prec emax s p e = S754_finite s p' e'.
Proof.
  intros He. unfold binary_round, shl_align.
  destruct (fexp prec emax (Z.pos (digits2_pos p) + e) - e) eqn:K;
    apply binary_round_aux_nonzero; try lia.
  apply emin_le_fexp.
Qed.

(** A mantissa with more than [prec] digits, in the normal range: the
    result keeps [prec] digits, its exponent is at least that of the
    truncation, and at that exponent its mantissa is at least the
    truncated one. *)
Lemma binary_round_aux_normal s m e l :
  0 < m ->
  prec < Zdigits2 m ->
  emin prec emax <= e + (Zdigits2 m - prec) ->
  binary_round_aux prec emax s m e l = S754_infinity s \/
  exists p e3,
    binary_round_aux prec emax s m e l = S754_finite s p e3 /\
    2 ^ (prec - 1) <= Z.pos p /\
    e + (Zdigits2 m - prec) <= e3 /\
    (e3 = e + (Zdigits2 m - prec) -> m / 2 ^ (Zdigits2 m - prec) <= Z.pos p).
Proof.
  intros Hm Hd He.
  destruct (@binary_round_aux_spec s m e l (Z.lt_le_incl _ _ Hm))
    as [m2 [Hm2 Heq]].
  assert (Hk : shift_of prec emax m e = Zdigits2 m - prec).
  { unfold shift_of, fexp. lia. }
  rewrite Hk in *. cbv zeta in Heq.
  set (k := Zdigits2 m - prec) in *.
  set (e1 := e + k) in *.
  destruct (@pow2_le_of_digits m Hm) as [Hlow Hhigh].
  assert (Hpk : 0 < 2 ^ k) by (apply Z.pow_pos_nonneg; lia).
  assert (Hsplit1 : 2 ^ (Zdigits2 m - 1) = 2 ^ k * 2 ^ (prec - 1)).
  { rewrite <- Z.pow_add_r by lia. f_equal. lia. }
  assert (Hsplit2 : 2 ^ Zdigits2 m = 2 ^ k * 2 ^ prec).
  { rewrite <- Z.pow_add_r by lia. f_equal. lia. }
  assert (Hm1low : 2 ^ (prec - 1) <= m / 2 ^ k).
  { apply Z.div_le_lower_bound; lia. }
  assert (Hm1high : m / 2 ^ k < 2 ^ prec).
  { apply Z.div_lt_upper_bound; lia. }
  assert (Hpp : 0 < 2 ^ (prec - 1)) by (apply Z.pow_pos_nonneg; lia).
  assert (Hdouble : 2 ^ prec = 2 * 2 ^ (prec - 1)).
  { rewrite <- Z.pow_succ_r by lia. f_equal. lia. }
  assert (Hm2pos : 0 < m2) by lia.
  destruct (Z.eq_dec m2 (2 ^ prec)) as [Hcarry | Hnocarry].
  - (* the rounding carried into a new digit *)
    assert (Hd2 : Zdigits2 m2 = prec + 1).
    { rewrite (@Zdigits2_log2 m2 Hm2pos), Hcarry, Z.log2_pow2 by lia. lia. }
    assert (Hk2 : shift_of prec emax m2 e1 = 1).
    { unfold shift_of, fexp. rewrite Hd2. lia. }
    rewrite Hk2 in Heq.
    assert (Hm3 : m2 / 2 ^ 1 = 2 ^ (prec - 1)).
    { rewrite Hcarry, Hdouble, Z.pow_1_r, Z.mul_comm, Z.div_mul by lia.
      reflexivity. }
    rewrite Hm3 in Heq.
    destruct (2 ^ (prec - 1)) as [|p|p] eqn:Ep; try lia.
    destruct (_ <=? _); [right | now left].
    exists p, (e1 + 1). repeat split; try lia. exact Heq.
  - assert (Hd2 : Zdigits2 m2 = prec).
    { rewrite (@Zdigits2_log2 m2 Hm2pos).
      rewrite (Z.log2_unique m2 (prec - 1)); [lia | lia |].
      replace (Z.succ (prec - 1)) with prec by lia. lia. }
    assert (Hk2 : shift_of prec emax m2 e1 = 0).
    { unfold shift_of, fexp. rewrite Hd2. lia. }
    rewrite Hk2, Z.pow_0_r, Z.div_1_r, Z.add_0_r in Heq.
    destruct m2 as [|p|p]; try lia.
    destruct (_ <=? _); [right | now left].
    exists p, e1. repeat split; try lia. exact Heq.
Qed.

Lemma shl_align_value m e e' :
  Z.pos (fst (shl_align m e e')) = Z.pos m * 2 ^ Z.max 0 (e - e').
Proof.
  unfold shl_align. destruct (e' - e) as [|d|d] eqn:K; simpl fst.
  - replace (Z.max 0 (e - e')) with 0 by lia. lia.
  - replace (Z.max 0 (e - e')) with 0 by lia. lia.
  - change (Pos.iter xO m d) with (shift_pos d m).
    rewrite shift_pos_correct, Z.pow_pos_fold.
    replace (Z.max 0 (e - e')) with (Z.pos d) by lia. lia.
Qed.

(** A canonical mantissa above the subnormal range has exactly [prec]
    digits. *)
Lemma bounded_normal m e :
  bounded prec emax m e = true ->
  emin prec emax < e ->
  Zdigits2 (Z.pos m) = prec /\ 2 ^ (prec - 1) <= Z.pos m < 2 ^ prec.
Proof.
  intros Hb He. unfold bounded, canonical_mantissa in Hb.
  apply andb_prop in Hb. destruct Hb as [Hc _].
  apply Z.eqb_eq in Hc. unfold fexp in Hc.
  assert (Hd : Zdigits2 (Z.pos m) = prec) by (simpl; lia).
  split; [exact Hd|].
  assert (Hp := @pow2_le_of_digits (Z.pos m) eq_refl).
  now rewrite Hd in Hp.
Qed.

Section Square.
Hypothesis prec_gt_1 : 1 < prec.
Hypothesis emax_gt_1 : 1 < emax.

(** The representation of [4.0] subtracted from the square of a number
    of magnitude above [2.0] is negative, and never [-0]: its square
    root is NaN. *)
Lemma sqrt_four_minus_square_nan s m e (four : positive) :
  Z.pos four = 2 ^ (prec - 1) ->
  bounded prec emax m e = true ->
  2 - prec < e \/ (e = 2 - prec /\ 2 ^ (prec - 1) < Z.pos m) ->
  SFsqrt prec emax
    (SFsub prec emax (S754_finite false four (3 - prec))
       (SFmul prec emax (S754_finite s m e) (S754_finite s m e)))
  = S754_nan.
Proof.
  intros Hfour Hb Hgt.
  assert (Hemin : emin prec emax < e) by (unfold emin; lia).
  destruct (@bounded_normal m e Hb Hemin) as [Hd [Hlow Hhigh]].
  assert (Ha : 0 < 2 ^ (prec - 1)) by (apply Z.pow_pos_nonneg; lia).
  assert (Hdouble : 2 ^ prec = 2 * 2 ^ (prec - 1)).
  { rewrite <- Z.pow_succ_r by lia. f_equal. lia. }
  set (M := Z.pos (m * m)).
  assert (HM : M = Z.pos m * Z.pos m) by reflexivity.
  assert (HMpos : 0 < M) by (unfold M; lia).
  assert (HMlow : 2 ^ (2 * prec - 2) <= M).
  { replace (2 * prec - 2) with ((prec - 1) + (prec - 1)) by lia.
    rewrite Z.pow_add_r by lia. nia. }
  assert (HMhigh : M < 2 ^ (2 * prec)).
  { replace (2 * prec) with (prec + prec) by lia.
    rewrite Z.pow_add_r by lia. nia. }
  assert (HdM : 2 * prec - 1 <= Zdigits2 M <= 2 * prec).
  { rewrite (@Zdigits2_log2 M HMpos).
    assert (2 * prec - 2 <= Z.log2 M)
      by (apply Z.log2_le_pow2; [exact HMpos | exact HMlow]).
    assert (Z.log2 M < 2 * prec)
      by (apply Z.log2_lt_pow2; [exact HMpos | exact HMhigh]).
    lia. }
  unfold SFmul. replace (xorb s s) with false by (now destruct s).
  fold M.
  destruct (@binary_round_aux_normal false M (e + e) loc_Exact)
    as [Hinf | (p & e3 & Heq & Hp & He3 & Hsame)];
    try (unfold emin in *; lia); [now rewrite Hinf |].
  rewrite Heq. unfold SFsub, binary_normalize.
  assert (Hmin : Z.min (3 - prec) e3 = 3 - prec) by lia.
  rewrite Hmin.
  assert (Hneg : Z.pos (fst (shl_align four (3 - prec) (3 - prec))) -
                 Z.pos (fst (shl_align p e3 (3 - prec))) < 0).
  { rewrite !shl_align_value, Z.sub_diag, Z.max_id, Z.pow_0_r, Z.mul_1_r.
    rewrite Hfour.
    destruct (Z.eq_dec e3 (3 - prec)) as [Eq3 | Ne3].
    - replace (Z.max 0 (e3 - (3 - prec))) with 0 by lia.
      rewrite Z.pow_0_r, Z.mul_1_r.
      assert (He : e = 2 - prec) by lia.
      assert (HdM' : Zdigits2 M = 2 * prec - 1) by lia.
      assert (Hm : 2 ^ (prec - 1) < Z.pos m) by lia.
      assert (Hq : 2 ^ (prec - 1) + 2 <= M / 2 ^ (Zdigits2 M - prec)).
      { replace (Zdigits2 M - prec) with (prec - 1) by lia.
        apply Z.div_le_lower_bound; [exact Ha | nia]. }
      assert (M / 2 ^ (Zdigits2 M - prec) <= Z.pos p) by (apply Hsame; lia).
      lia.
    - assert (Hk : 1 <= Z.max 0 (e3 - (3 - prec))) by lia.
      assert (2 ^ 1 <= 2 ^ Z.max 0 (e3 - (3 - prec)))
        by (apply Z.pow_le_mono_r; lia).
      rewrite Z.pow_1_r in *. nia. }
  cbv [cond_Zopp].
  destruct (Z.pos (fst (shl_align four (3 - prec) (3 - prec))) -
            Z.pos (fst (shl_align p e3 (3 - prec)))) as [|q|q] eqn:Eq;
    try lia.
  destruct (@binary_round_nonzero true q (3 - prec))
    as [Hr | (p' & e' & Hr)];
    [unfold emin; lia | now rewrite Hr | now rewrite Hr].
Qed.
End Square.
End RoundingFacts.

(** ** wigner *)

Lemma wigner_pointwise t l : wigner t l = map (wigner_point t) l.
Proof.
  unfold wigner, Np.cast, Np.divide_scalar, Np.sqrt, Np.rsub_scalar, Np.square.
  rewrite !map_map. reflexivity.
Qed.

Lemma fmul_opp_opp t x : fmul t (SFopp x) (SFopp x) = fmul t x x.
Proof.
  unfold fmul. destruct x as [s|s| |s m e]; simpl; try reflexivity;
    destruct s; reflexivity.
Qed.

(** The comparison [|x| > 2.0] read on the mantissa and exponent. *)
Lemma fgt_finite_cases s m e (two : positive) (e2 : Z) :
  fgt (SFabs (S754_finite s m e)) (S754_finite false two e2) = true ->
  (e2 < e \/ (e = e2 /\ Z.pos two < Z.pos m))%Z.
Proof.
  unfold fgt. simpl.
  destruct (Z.compare_spec e e2) as [He | He | He]; try discriminate.
  - change (Pos.compare_cont Eq m two) with (Pos.compare m two).
    destruct (Pos.compare_spec m two); try discriminate.
    intros _. right. split; [exact He | lia].
  - intros _. left. lia.
Qed.

Lemma wigner_point_out_of_domain t x :
  np_floating t ->
  valid t x = true ->
  fgt (SFabs x) (scalar t (py_float_of_int 2)) = true ->
  wigner_point t x = nan.
Proof.
  intros Ht Hv Hgt.
  destruct x as [s|s| |s m e];
    [ destruct Ht as [-> | ->]; discriminate Hgt
    | destruct Ht as [-> | ->]; destruct s; reflexivity
    | discriminate Hgt
    | destruct Ht as [-> | ->] ].
  - (* float32 *)
    change (scalar float32 (py_float_of_int 2))
      with (S754_finite false 8388608 (-22)) in Hgt.
    apply fgt_finite_cases in Hgt.
    unfold wigner_point, fdiv, fsqrt, fsub, fmul.
    change (of_Z float32 4) with (S754_finite false 8388608 (3 - 24)).
    change (dt_prec float32) with 24%Z. change (dt_emax float32) with 128%Z.
    rewrite (@sqrt_four_minus_square_nan 24 128);
      first [exact Hv | lia | reflexivity].
  - (* float64 *)
    change (scalar float64 (py_float_of_int 2))
      with (S754_finite false 4503599627370496 (-51)) in Hgt.
    apply fgt_finite_cases in Hgt.
    unfold wigner_point, fdiv, fsqrt, fsub, fmul.
    change (of_Z float64 4) with (S754_finite false 4503599627370496 (3 - 53)).
    change (dt_prec float64) with 53%Z. change (dt_emax float64) with 1024%Z.
    rewrite (@sqrt_four_minus_square_nan 53 1024);
      first [exact Hv | lia | reflexivity].
Qed.

(** *** Inside the support *)

Section MoreRounding.
Local Open Scope Z_scope.
Variables prec emax : Z.

(** Rounding a non-negative mantissa with a clear sign gives no NaN and no
    set sign bit. *)
Lemma binary_round_aux_nonneg m e l :
  0 <= m -> sign_clear (binary_round_aux prec emax false m e l) = true.
Proof.
  intros Hm.
  destruct (@binary_round_aux_spec prec emax false m e l Hm) as [m2 [Hm2 Heq]].
  cbv zeta in Heq. rewrite Heq.
  assert (H1 : 0 <= m / 2 ^ shift_of prec emax m e).
  { apply Z.div_pos; [lia | apply Z.pow_pos_nonneg; unfold shift_of; lia]. }
  assert (H3 : 0 <= m2 / 2 ^ shift_of prec emax m2
                               (e + shift_of prec emax m e)).
  { apply Z.div_pos; [lia | apply Z.pow_pos_nonneg; unfold shift_of; lia]. }
  destruct (m2 / 2 ^ shift_of prec emax m2 (e + shift_of prec emax m e));
    try reflexivity; try lia.
  destruct (_ <=? _); reflexivity.
Qed.

Lemma binary_round_nonneg p e :
  sign_clear (binary_round prec emax false p e) = true.
Proof.
  unfold binary_round. destruct (shl_align p e _) as [mz ez].
  apply binary_round_aux_nonneg. lia.
Qed.

Lemma SFsqrt_nonneg x :
  sign_clear x = true -> sign_clear (SFsqrt prec emax x) = true.
Proof.
  destruct x as [s|s| |s m e]; try destruct s; try discriminate;
    intros _; try reflexivity.
  unfold SFsqrt, SFsqrt_core_binary.
  set (m' := match _ - _ with Z.pos _ => _ | Z0 => _ | _ => _ end).
  assert (Hm' : 0 <= m').
  { unfold m'. destruct (_ - _); try lia.
    apply Z.shiftl_nonneg. lia. }
  assert (Hs := Z.sqrtrem_spec m' Hm').
  destruct (Z.sqrtrem m') as [q r].
  apply binary_round_aux_nonneg. lia.
Qed.

Lemma SFdiv_nonneg x my ey :
  sign_clear x = true ->
  sign_clear (SFdiv prec emax x (S754_finite false my ey)) = true.
Proof.
  destruct x as [s|s| |s m e]; try destruct s; try discriminate;
    intros _; try reflexivity.
  unfold SFdiv, SFdiv_core_binary.
  set (m' := match _ - _ - _ with Z.pos _ => _ | Z0 => _ | _ => _ end).
  assert (Hm' : 0 <= m').
  { unfold m'. destruct (_ - _ - _); try lia.
    apply Z.shiftl_nonneg. lia. }
  assert (Hq := Z.div_pos m' (Z.pos my) Hm' eq_refl).
  unfold Z.div in Hq.
  destruct (Z.div_eucl m' (Z.pos my)) as [q r].
  apply binary_round_aux_nonneg. exact Hq.
Qed.

Hypothesis prec_gt_1 : 1 < prec.
Hypothesis emax_ge_3 : 3 <= emax.

(** The square of a number of magnitude below [2.0] rounds to at most
    [4.0]: subtracting it from [4.0] leaves the sign bit clear. *)
Lemma four_minus_square_nonneg s m e (four : positive) :
  Z.pos four = 2 ^ (prec - 1) ->
  bounded prec emax m e = true ->
  e < 2 - prec ->
  sign_clear
    (SFsub prec emax (S754_finite false four (3 - prec))
       (SFmul prec emax (S754_finite s m e) (S754_finite s m e))) = true.
Proof.
  intros Hfour Hb He.
  assert (Hd : Zdigits2 (Z.pos m) <= prec).
  { unfold bounded, canonical_mantissa in Hb.
    apply andb_prop in Hb. destruct Hb as [Hc _].
    apply Z.eqb_eq in Hc. unfold fexp in Hc. simpl. lia. }
  assert (Hm : Z.pos m < 2 ^ (1 - e)).
  { destruct (@pow2_le_of_digits (Z.pos m) eq_refl) as [_ Hlt].
    apply Z.lt_le_trans with (1 := Hlt).
    apply Z.pow_le_mono_r; lia. }
  set (M := Z.pos (m * m)).
  set (E := e + e).
  assert (HMpos : 0 < M) by (unfold M; lia).
  assert (HM : M < 2 ^ (2 - E)).
  { replace (2 - E) with ((1 - e) + (1 - e)) by (unfold E; lia).
    rewrite Z.pow_add_r by lia.
    change M with (Z.pos m * Z.pos m). nia. }
  assert (HdM : Zdigits2 M + E <= 2).
  { rewrite (@Zdigits2_log2 M HMpos).
    assert (Z.log2 M < 2 - E) by (apply Z.log2_lt_pow2; assumption).
    lia. }
  unfold SFmul. replace (xorb s s) with false by (now destruct s).
  fold M. fold E.
  destruct (@binary_round_aux_spec prec emax false M E loc_Exact)
    as [m2 [Hm2 Heq]]; [lia|].
  cbv zeta in Heq. rewrite Heq. clear Heq.
  set (k1 := shift_of prec emax M E) in *.
  set (e1 := E + k1) in *.
  assert (Hk1 : 0 <= k1) by (unfold k1, shift_of; lia).
  assert (He1 : e1 <= 2 - prec).
  { unfold e1, k1, shift_of, fexp, emin, E. unfold E in HdM. lia. }
  assert (Hp1 : 0 < 2 ^ k1) by (apply Z.pow_pos_nonneg; lia).
  assert (Hm1 : M / 2 ^ k1 < 2 ^ (2 - e1)).
  { apply Z.div_lt_upper_bound; [exact Hp1|].
    rewrite <- Z.pow_add_r by lia.
    replace (k1 + (2 - e1)) with (2 - E) by (unfold e1; lia). exact HM. }
  assert (Hm1' : 0 <= M / 2 ^ k1) by (apply Z.div_pos; lia).
  assert (Hm2' : 0 <= m2 <= 2 ^ (2 - e1)) by lia.
  set (k2 := shift_of prec emax m2 e1).
  assert (Hk2 : 0 <= k2) by (unfold k2, shift_of; lia).
  assert (Hp2 : 0 < 2 ^ k2) by (apply Z.pow_pos_nonneg; lia).
  assert (He3 : e1 + k2 <= 3 - prec).
  { destruct (Z.eq_dec m2 0) as [-> | Hnz].
    - unfold k2, shift_of, fexp, emin. simpl Zdigits2. lia.
    - assert (H0 : 0 < m2) by lia.
      assert (Hl : Z.log2 m2 <= 2 - e1).
      { rewrite <- (Z.log2_pow2 (2 - e1)) by lia.
        apply Z.log2_le_mono. lia. }
      unfold k2, shift_of, fexp, emin.
      rewrite (@Zdigits2_log2 m2 H0). lia. }
  assert (Hm3 : 0 <= m2 / 2 ^ k2 <= 2 ^ (2 - (e1 + k2))).
  { split; [apply Z.div_pos; lia|].
    apply Z.div_le_upper_bound; [exact Hp2|].
    rewrite <- Z.pow_add_r by lia.
    replace (k2 + (2 - (e1 + k2))) with (2 - e1) by lia. lia. }
  destruct (m2 / 2 ^ k2) as [|p|p] eqn:Em3; try lia; [reflexivity|].
  replace (e1 + k2 <=? emax - prec) with true
    by (symmetry; apply Z.leb_le; lia).
  unfold SFsub, binary_normalize, cond_Zopp.
  replace (Z.min (3 - prec) (e1 + k2)) with (e1 + k2) by lia.
  assert (HD : 0 <= Z.pos (fst (shl_align four (3 - prec) (e1 + k2))) -
                    Z.pos (fst (shl_align p (e1 + k2) (e1 + k2)))).
  { rewrite !shl_align_value, Z.sub_diag, Z.max_id, Z.pow_0_r, Z.mul_1_r.
    rewrite Hfour, <- Z.pow_add_r by lia.
    replace (prec - 1 + Z.max 0 (3 - prec - (e1 + k2)))
      with (2 - (e1 + k2)) by lia.
    lia. }
  destruct (Z.pos (fst (shl_align four (3 - prec) (e1 + k2))) -
            Z.pos (fst (shl_align p (e1 + k2) (e1 + k2)))) as [|q|q];
    try lia; [reflexivity|].
  apply binary_round_nonneg.
Qed.
End MoreRounding.

Lemma astype_nonneg t x : sign_clear x = true -> sign_clear (astype t x) = true.
Proof.
  destruct x as [s|s| |s m e]; try destruct s; try discriminate;
    intros _; try reflexivity.
  apply binary_round_nonneg.
Qed.

(** The comparison [|x| <= 2.0] read on the mantissa and exponent. *)
Lemma fle_finite_cases s m e (two : positive) (e2 : Z) :
  fle (SFabs (S754_finite s m e)) (S754_finite false two e2) = true ->
  (e < e2 \/ (e = e2 /\ Z.pos m <= Z.pos two))%Z.
Proof.
  unfold fle. simpl.
  destruct (Z.compare_spec e e2) as [He | He | He]; try discriminate.
  - change (Pos.compare_cont Eq m two) with (Pos.compare m two).
    destruct (Pos.compare_spec m two); try discriminate;
      intros _; right; split; try exact He; lia.
  - intros _. left. lia.
Qed.

Lemma wigner_point_in_domain t x :
  np_floating t ->
  valid t x = true ->
  fle (SFabs x) (scalar t (py_float_of_int 2)) = true ->
  sign_clear (wigner_point t x) = true.
Proof.
  intros Ht Hv Hle.
  destruct x as [s|s| |s m e];
    [ destruct Ht as [-> | ->]; destruct s; reflexivity
    | destruct Ht as [-> | ->]; destruct s; discriminate Hle
    | discriminate Hle
    | destruct Ht as [-> | ->] ].
  - (* float32 *)
    change (scalar float32 (py_float_of_int 2))
      with (S754_finite false 8388608 (-22)) in Hle.
    apply fle_finite_cases in Hle.
    destruct Hle as [He | [He Hm]].
    + unfold wigner_point. apply astype_nonneg.
      change (scalar float32 (fmul float64 (py_float_of_int 2) np_pi))
        with (S754_finite false 13176795 (-21)).
      apply SFdiv_nonneg, SFsqrt_nonneg.
      change (of_Z float32 4) with (S754_finite false 8388608 (3 - 24)).
      apply (@four_minus_square_nonneg 24 128);
        first [exact Hv | lia | reflexivity].
    + destruct (@bounded_normal 24 128 m e Hv) as [_ [Hlow _]];
        [unfold emin; lia|].
      assert (m = 8388608%positive) by lia. subst m e.
      destruct s; reflexivity.
  - (* float64 *)
    change (scalar float64 (py_float_of_int 2))
      with (S754_finite false 4503599627370496 (-51)) in Hle.
    apply fle_finite_cases in Hle.
    destruct Hle as [He | [He Hm]].
    + unfold wigner_point. apply astype_nonneg.
      change (scalar float64 (fmul float64 (py_float_of_int 2) np_pi))
        with (S754_finite false 7074237752028440 (-50)).
      apply SFdiv_nonneg, SFsqrt_nonneg.
      change (of_Z float64 4)
        with (S754_finite false 4503599627370496 (3 - 53)).
      apply (@four_minus_square_nonneg 53 1024);
        first [exact Hv | lia | reflexivity].
    + destruct (@bounded_normal 53 1024 m e Hv) as [_ [Hlow _]];
        [unfold emin; lia|].
      assert (m = 4503599627370496%positive) by lia. subst m e.
      destruct s; reflexivity.
Qed.

(** C8. [wigner(l)] is, element by element, [sqrt(4 - l^2) / (2*pi)] cast
    to a 32-bit float (so in particular on every [l] within [[-2, 2]]);
    [wigner(2) = 0], [wigner(-2) = 0], [wigner(0)] is [2 / (2*pi)] as a
    32-bit float, [10680707 * 2^-25], which lies between 0.3183 and 0.3184;
    and [wigner(-l) = wigner(l)] for every [l]. *)
Theorem wigner_semicircle :
  (forall (t : dtype) (l : list float),
      wigner t l =
        map (fun x =>
               astype float32
                 (fdiv t (fsqrt t (fsub t (of_Z t 4) (fmul t x x)))
                         (scalar t (fmul float64 (py_float_of_int 2) np_pi))))
            l) /\
  (wigner float32 [of_Z float32 2] = [pzero] /\
   wigner float64 [of_Z float64 2] = [pzero]) /\
  (wigner float32 [of_Z float32 (-2)] = [pzero] /\
   wigner float64 [of_Z float64 (-2)] = [pzero]) /\
  (wigner float32 [of_Z float32 0] =
     [astype float32
        (fdiv float64 (py_float_of_int 2)
           (fmul float64 (py_float_of_int 2) np_pi))] /\
   wigner float64 [of_Z float64 0] =
     [astype float32
        (fdiv float64 (py_float_of_int 2)
           (fmul float64 (py_float_of_int 2) np_pi))] /\
   astype float32
     (fdiv float64 (py_float_of_int 2)
        (fmul float64 (py_float_of_int 2) np_pi)) =
     S754_finite false 10680707 (-25) /\
   (3183 * 2 ^ 25 <= 10680707 * 10000 < 3184 * 2 ^ 25)%Z) /\
  (forall (t : dtype) (l : list float),
      wigner t (map SFopp l) = wigner t l).
Proof.
  split; [exact wigner_pointwise|].
  split; [split; vm_compute; reflexivity|].
  split; [split; vm_compute; reflexivity|].
  split.
  - repeat split; try (vm_compute; reflexivity); vm_compute; discriminate.
  - intros t l. rewrite !wigner_pointwise, map_map.
    apply map_ext. intros x. unfold wigner_point.
    now rewrite fmul_opp_opp.
Qed.

(** C9. [wigner] returns an array of the length of [l] whatever the
    entries are (nothing is raised).  At every position whose entry has
    [|l| > 2] the result is NaN.  Every position holds the density formula
    evaluated on its own entry, so the positions with [|l| <= 2] are not
    affected by the others: they hold a number (not NaN) whose sign bit is
    clear.  Stated for float32 and float64 arrays. *)
Theorem wigner_out_of_domain :
  forall (t : dtype) (l : list float),
    np_floating t ->
    Forall (fun x => valid t x = true) l ->
    length (wigner t l) = length l /\
    forall i, i < length l ->
      nth i (wigner t l) nan = wigner_point t (nth i l nan) /\
      (fgt (SFabs (nth i l nan)) (scalar t (py_float_of_int 2)) = true ->
       nth i (wigner t l) nan = nan) /\
      (fle (SFabs (nth i l nan)) (scalar t (py_float_of_int 2)) = true ->
       is_nan (nth i (wigner t l) nan) = false /\
       sign_clear (nth i (wigner t l) nan) = true).
Proof.
  intros t l Ht Hvalid.
  rewrite wigner_pointwise, length_map. split; [reflexivity|].
  intros i Hi.
  assert (Hnth : nth i (map (wigner_point t) l) nan =
                 wigner_point t (nth i l nan)).
  { rewrite nth_indep with (d' := wigner_point t nan)
      by (rewrite length_map; exact Hi).
    apply map_nth. }
  assert (Hv : valid t (nth i l nan) = true).
  { rewrite Forall_forall in Hvalid. apply Hvalid, nth_In, Hi. }
  rewrite Hnth. split; [reflexivity|]. split.
  - intros Hgt. now apply wigner_point_out_of_domain.
  - intros Hle.
    assert (Hs := @wigner_point_in_domain t _ Ht Hv Hle).
    split; [|exact Hs].
    destruct (wigner_point t (nth i l nan)); try reflexivity; discriminate.
Qed.

Lemma wigner_out_of_domain_witness :
  np_floating float32 /\
  Forall (fun x => valid float32 x = true) (map (of_Z float32) [3; 1]%Z) /\
  length (wigner float32 (map (of_Z float32) [3; 1]%Z)) = 2 /\
  nth 0 (wigner float32 (map (of_Z float32) [3; 1]%Z)) nan = nan /\
  is_nan (nth 1 (wigner float32 (map (of_Z float32) [3; 1]%Z)) nan) = false.
Proof.
  assert (Ht : np_floating float32) by (left; reflexivity).
  assert (Hv : Forall (fun x => valid float32 x = true)
                 (map (of_Z float32) [3; 1]%Z))
    by (repeat constructor).
  split; [exact Ht|]. split; [exact Hv|].
  destruct (wigner_out_of_domain Ht Hv) as [Hlen Hpos].
  split; [exact Hlen|]. split.
  - apply (proj1 (proj2 (Hpos 0 ltac:(simpl; lia)))). reflexivity.
  - apply (proj2 (proj2 (Hpos 1 ltac:(simpl; lia)))). reflexivity.
Defined.

(** ** The sign of [rmse] *)

Lemma binary_round_aux_sign_clear prec emax m e l :
  nonneg_or_nan (binary_round_aux prec emax false m e l) = true.
Proof.
  unfold binary_round_aux.
  destruct (shr_fexp prec emax m e l) as [mrs1 e1].
  destruct (shr_fexp prec emax _ e1 loc_Exact) as [mrs2 e2].
  destruct (shr_m mrs2); try reflexivity.
  destruct (Z.leb e2 (emax - prec)); reflexivity.
Qed.

Lemma binary_round_sign_clear prec emax m e :
  nonneg_or_nan (binary_round prec emax false m e) = true.
Proof.
  unfold binary_round. destruct (shl_align m e _) as [mz ez].
  apply binary_round_aux_sign_clear.
Qed.

Lemma fmul_self_sign_clear t x : nonneg_or_nan (fmul t x x) = true.
Proof.
  unfold fmul. destruct x as [s|s| |s m e]; simpl;
    [destruct s; reflexivity | destruct s; reflexivity | reflexivity |].
  replace (xorb s s) with false by (now destruct s).
  apply binary_round_aux_sign_clear.
Qed.

Lemma fadd_sign_clear t x y :
  nonneg_or_nan x = true -> nonneg_or_nan y = true ->
  nonneg_or_nan (fadd t x y) = true.
Proof.
  unfold fadd.
  destruct x as [sx|sx| |sx mx ex], y as [sy|sy| |sy my ey];
    try destruct sx; try destruct sy; try discriminate;
    intros _ _; try reflexivity.
  unfold SFadd, cond_Zopp, binary_normalize.
  destruct (Z.pos _ + Z.pos _)%Z eqn:E; try reflexivity; try lia.
  apply binary_round_sign_clear.
Qed.

Lemma fdiv_sign_clear t x y :
  nonneg_or_nan x = true -> nonneg_or_nan y = true ->
  nonneg_or_nan (fdiv t x y) = true.
Proof.
  unfold fdiv.
  destruct x as [sx|sx| |sx mx ex], y as [sy|sy| |sy my ey];
    try destruct sx; try destruct sy; try discriminate;
    intros _ _; try reflexivity.
  unfold SFdiv.
  destruct (SFdiv_core_binary _ _ _ _ _ _) as [[mz ez] lz].
  apply binary_round_aux_sign_clear.
Qed.

Lemma fsqrt_sign_clear t x :
  nonneg_or_nan x = true -> nonneg_or_nan (fsqrt t x) = true.
Proof.
  unfold fsqrt.
  destruct x as [s|s| |s m e]; try destruct s; try discriminate;
    intros _; try reflexivity.
  unfold SFsqrt.
  destruct (SFsqrt_core_binary _ _ _ _) as [[mz ez] lz].
  apply binary_round_aux_sign_clear.
Qed.

Lemma of_Z_sign_clear t n : nonneg_or_nan (of_Z t (Z.of_nat n)) = true.
Proof.
  unfold of_Z, binary_normalize.
  destruct (Z.of_nat n) eqn:E; try reflexivity; try lia.
  apply binary_round_sign_clear.
Qed.

(** ** Summation *)

Lemma fadd_nan_l t y : fadd t nan y = nan.
Proof. reflexivity. Qed.

Lemma fadd_nan_r t x : fadd t x nan = nan.
Proof. destruct x as [s|s| |s m e]; reflexivity. Qed.


(** A property of [0.0] that additions keep holds of every sum of
    numbers that have it. *)
Lemma float_sum_closed t (P : float -> Prop) :
  P pzero ->
  (forall x y, P x -> P y -> P (fadd t x y)) ->
  forall l s, float_sum t l s -> Forall P l -> P s.
Proof.
  intros H0 Hadd l s Hs.
  induction Hs as [|x|l1 l2 s1 s2 _ IH1 _ IH2|l l' s Hperm _ IH];
    intros Hall.
  - exact H0.
  - now inversion Hall.
  - apply Forall_app in Hall. destruct Hall as [H1 H2]. auto.
  - apply IH. eapply Permutation_Forall; [|exact Hall].
    now apply Permutation_sym.
Qed.

Lemma float_sum_nan t l s : float_sum t l s -> In nan l -> s = nan.
Proof.
  intros Hs.
  induction Hs as [|x|l1 l2 s1 s2 _ IH1 _ IH2|l l' s Hperm _ IH];
    intros Hin.
  - contradiction.
  - destruct Hin as [-> | []]. reflexivity.
  - apply in_app_or in Hin. destruct Hin as [Hin | Hin].
    + rewrite (IH1 Hin). apply fadd_nan_l.
    + rewrite (IH2 Hin). apply fadd_nan_r.
  - apply IH. eapply Permutation_in; [|exact Hin].
    now apply Permutation_sym.
Qed.

Lemma float_sum_fold t rest l acc :
  float_sum t l acc ->
  float_sum t (l ++ rest) (fold_left (fadd t) rest acc).
Proof.
  revert l acc. induction rest as [|x rest IH]; intros l acc H; simpl.
  - now rewrite app_nil_r.
  - replace (l ++ x :: rest) with ((l ++ [x]) ++ rest)
      by (now rewrite <- app_assoc).
    apply IH. apply float_sum_add; [exact H | apply float_sum_one].
Qed.

Lemma float_sum_left_to_right t l :
  float_sum t l (fold_left (fadd t) l pzero).
Proof. apply (@float_sum_fold t l [] pzero (float_sum_nil t)). Qed.

(** One round of the accumulators: each takes one more number. *)
Lemma accumulate_step t (Ls : list (list float)) (r c : list float) :
  Forall2 (float_sum t) Ls r ->
  length c = length r ->
  Forall2 (float_sum t)
    (Np.zip_with (fun L x => L ++ [x]) Ls c) (Np.zip_with (fadd t) r c) /\
  Permutation (concat (Np.zip_with (fun L x => L ++ [x]) Ls c))
              (concat Ls ++ c).
Proof.
  unfold Np.zip_with. intros H. revert c.
  induction H as [|L s Ls r HL _ IH]; intros [|x c] Hlen; simpl in *;
    try discriminate; [split; constructor|].
  injection Hlen as Hlen. destruct (IH c Hlen) as [IH1 IH2].
  split.
  - constructor; [|exact IH1].
    apply float_sum_add; [exact HL | apply float_sum_one].
  - rewrite <- !app_assoc. apply Permutation_app_head. simpl.
    apply Permutation_trans with (x :: concat Ls ++ c).
    + now constructor.
    + apply Permutation_middle.
Qed.

Lemma block_accumulate_spec t rest :
  forall (Ls : list (list float)) (r : list float),
    Forall2 (float_sum t) Ls r ->
    length r = 8 ->
    exists Ls',
      Forall2 (float_sum t) Ls' (fst (Np.block_accumulate t r rest)) /\
      length (fst (Np.block_accumulate t r rest)) = 8 /\
      Permutation (concat Ls' ++ snd (Np.block_accumulate t r rest))
                  (concat Ls ++ rest).
Proof.
  remember (length rest) as n eqn:Hn. revert rest Hn.
  induction n as [n IH] using lt_wf_ind. intros rest Hn Ls r HLs Hr.
  destruct rest as [|x0 [|x1 [|x2 [|x3 [|x4 [|x5 [|x6 [|x7 rest']]]]]]]];
    try (exists Ls; simpl; repeat split; auto; fail).
  cbn [Np.block_accumulate].
  set (c := [x0; x1; x2; x3; x4; x5; x6; x7]).
  destruct (@accumulate_step t Ls r c HLs) as [Hstep Hperm];
    [now rewrite Hr|].
  assert (Hlen' : length (Np.zip_with (fadd t) r c) = 8).
  { rewrite zip_with_length, Hr. reflexivity. }
  destruct (IH (length rest')) with (rest := rest')
      (Ls := Np.zip_with (fun L x => L ++ [x]) Ls c)
      (r := Np.zip_with (fadd t) r c)
    as (Ls' & H1 & H2 & H3); auto.
  { subst n. simpl. lia. }
  exists Ls'. repeat split; auto.
  apply Permutation_trans with (1 := H3).
  change (x0 :: x1 :: x2 :: x3 :: x4 :: x5 :: x6 :: x7 :: rest')
    with (c ++ rest').
  rewrite app_assoc. now apply Permutation_app_tail.
Qed.

Lemma singletons_sum t (l : list float) :
  Forall2 (float_sum t) (map (fun x => [x]) l) l /\
  concat (map (fun x => [x]) l) = l.
Proof.
  induction l as [|x l [IH1 IH2]]; simpl; split; try constructor; auto.
  - apply float_sum_one.
  - now rewrite IH2.
Qed.

Lemma block_sum_float_sum t a :
  8 <= length a -> float_sum t a (Np.block_sum t a).
Proof.
  intros Hlen. unfold Np.block_sum.
  destruct (singletons_sum t (firstn 8 a)) as [Hs Hc].
  assert (H8 : length (firstn 8 a) = 8) by (rewrite length_firstn; lia).
  destruct (@block_accumulate_spec t (skipn 8 a) _ _ Hs H8)
    as (Ls & H1 & H2 & H3).
  rewrite Hc, firstn_skipn in H3.
  destruct (Np.block_accumulate t (firstn 8 a) (skipn 8 a)) as [r rest].
  cbn [fst snd] in H1, H2, H3.
  destruct r as [|r0 [|r1 [|r2 [|r3 [|r4 [|r5 [|r6 [|r7 [|r8 r]]]]]]]]];
    try discriminate.
  inversion H1 as [|L0 ? Ls0 ? S0 T0]; subst. clear H1.
  inversion T0 as [|L1 ? Ls1 ? S1 T1]; subst. clear T0.
  inversion T1 as [|L2 ? Ls2 ? S2 T2]; subst. clear T1.
  inversion T2 as [|L3 ? Ls3 ? S3 T3]; subst. clear T2.
  inversion T3 as [|L4 ? Ls4 ? S4 T4]; subst. clear T3.
  inversion T4 as [|L5 ? Ls5 ? S5 T5]; subst. clear T4.
  inversion T5 as [|L6 ? Ls6 ? S6 T6]; subst. clear T5.
  inversion T6 as [|L7 ? Ls7 ? S7 T7]; subst. clear T6.
  inversion T7; subst. clear T7.
  apply float_sum_perm with (2 :=
    @float_sum_fold t rest _ _
      (float_sum_add
         (float_sum_add (float_sum_add S0 S1) (float_sum_add S2 S3))
         (float_sum_add (float_sum_add S4 S5) (float_sum_add S6 S7)))).
  apply Permutation_trans with (2 := H3).
  apply Permutation_app_tail. simpl. rewrite app_nil_r, <- !app_assoc.
  apply Permutation_refl.
Qed.

Lemma pairwise_split_lengths n :
  128 < n ->
  0 < n / 2 - (n / 2) mod 8 < n.
Proof.
  intros Hn.
  assert (64 <= n / 2) by (apply Nat.div_le_lower_bound; lia).
  assert (n / 2 < n) by (apply Nat.div_lt; lia).
  assert ((n / 2) mod 8 < 8) by (apply Nat.mod_upper_bound; lia).
  lia.
Qed.

Lemma pairwise_sum_float_sum t fuel :
  forall a, length a <= fuel -> float_sum t a (Np.pairwise_sum t fuel a).
Proof.
  induction fuel as [|fuel IH]; intros a Hfuel.
  - destruct a; [|simpl in Hfuel; lia]. apply float_sum_nil.
  - cbn [Np.pairwise_sum]. cbv zeta.
    destruct (Nat.ltb (length a) 8) eqn:E8.
    { apply float_sum_left_to_right. }
    apply Nat.ltb_ge in E8.
    destruct (Nat.leb (length a) 128) eqn:E128.
    { now apply block_sum_float_sum. }
    apply Nat.leb_gt in E128.
    destruct (pairwise_split_lengths E128) as [Hlo Hhi].
    set (n2 := length a / 2 - (length a / 2) mod 8) in *.
    rewrite <- (firstn_skipn n2 a) at 1.
    apply float_sum_add; apply IH.
    + rewrite length_firstn. lia.
    + rewrite length_skipn. lia.
Qed.

(** The sum numpy returns is a sum of the array's numbers. *)
Lemma sum_float_sum t a : float_sum t a (Np.sum t a).
Proof.
  unfold Np.sum.
  apply (float_sum_add (float_sum_nil t)
           (@pairwise_sum_float_sum t (length a) a (le_n _))).
Qed.

(** The fuel is enough: more changes nothing. *)
Lemma pairwise_sum_fuel t fuel1 :
  forall fuel2 a, length a <= fuel1 -> length a <= fuel2 ->
    Np.pairwise_sum t fuel1 a = Np.pairwise_sum t fuel2 a.
Proof.
  induction fuel1 as [|fuel1 IH]; intros fuel2 a H1 H2.
  - destruct a; [|simpl in H1; lia]. now destruct fuel2.
  - destruct fuel2 as [|fuel2].
    { destruct a; [reflexivity | simpl in H2; lia]. }
    cbn [Np.pairwise_sum]. cbv zeta.
    destruct (Nat.ltb (length a) 8); [reflexivity|].
    destruct (Nat.leb (length a) 128) eqn:E128; [reflexivity|].
    apply Nat.leb_gt in E128.
    destruct (pairwise_split_lengths E128) as [Hlo Hhi].
    set (n2 := length a / 2 - (length a / 2) mod 8) in *.
    f_equal; apply IH;
      rewrite ?length_firstn, ?length_skipn; lia.
Qed.

(** On more than 128 numbers the sum is the sum of the two parts. *)
Lemma pairwise_sum_split t a :
  128 < length a ->
  Np.pairwise_sum t (length a) a =
    (let n2 := length a / 2 - (length a / 2) mod 8 in
     fadd t (Np.pairwise_sum t (length (firstn n2 a)) (firstn n2 a))
            (Np.pairwise_sum t (length (skipn n2 a)) (skipn n2 a))).
Proof.
  intros Hn. destruct (pairwise_split_lengths Hn) as [Hlo Hhi].
  destruct (length a) as [|n] eqn:El; [lia|].
  cbn [Np.pairwise_sum]. cbv zeta. rewrite El.
  destruct (Nat.ltb (S n) 8) eqn:E8; [apply Nat.ltb_lt in E8; lia|].
  destruct (Nat.leb (S n) 128) eqn:E128; [apply Nat.leb_le in E128; lia|].
  set (n2 := S n / 2 - (S n / 2) mod 8) in *.
  f_equal; apply pairwise_sum_fuel;
    rewrite ?length_firstn, ?length_skipn; lia.
Qed.

(** Later numpy versions start the short loop from [-0.0] instead of
    [0.0]; the sum is the same, since it is added to the identity
    [0.0]: a partial sum can only differ in the sign of a zero. *)
Lemma fadd_same_up_to_zero_sign t x x' y :
  same_up_to_zero_sign x x' ->
  same_up_to_zero_sign (fadd t x y) (fadd t x' y).
Proof.
  intros [-> | (s & s' & -> & ->)]; [now left|].
  destruct y as [sy|sy| |sy my ey]; try (left; reflexivity).
  right. destruct s, s', sy; do 2 eexists; split; reflexivity.
Qed.

Lemma fold_same_up_to_zero_sign t a :
  forall x x', same_up_to_zero_sign x x' ->
    same_up_to_zero_sign (fold_left (fadd t) a x) (fold_left (fadd t) a x').
Proof.
  induction a as [|y a IH]; intros x x' H; simpl; [exact H|].
  apply IH. now apply fadd_same_up_to_zero_sign.
Qed.

Lemma sum_negative_zero_start t a :
  fadd t pzero (fold_left (fadd t) a (S754_zero true)) =
  fadd t pzero (fold_left (fadd t) a pzero).
Proof.
  destruct (@fold_same_up_to_zero_sign t a (S754_zero true) pzero)
    as [-> | (s & s' & -> & ->)].
  - right. now exists true, false.
  - reflexivity.
  - now destruct s, s'.
Qed.


Lemma sum_sign_clear t a :
  Forall (fun x => nonneg_or_nan x = true) a ->
  nonneg_or_nan (Np.sum t a) = true.
Proof.
  apply (@float_sum_closed t (fun x => nonneg_or_nan x = true));
    [reflexivity | apply fadd_sign_clear | apply sum_float_sum].
Qed.


Lemma square_sign_clear t d :
  Forall (fun x => nonneg_or_nan x = true) (Np.square t d).
Proof.
  unfold Np.square. apply Forall_forall. intros y Hy.
  apply in_map_iff in Hy. destruct Hy as [x [<- _]].
  apply fmul_self_sign_clear.
Qed.

Lemma rmse_sign_clear t a b r :
  rmse t a b = Some r -> nonneg_or_nan r = true.
Proof.
  unfold rmse. destruct (Np.subtract t a b) as [d|]; simpl; [|discriminate].
  intros H. injection H as <-.
  apply fsqrt_sign_clear. unfold Np.mean.
  apply fdiv_sign_clear; [|apply of_Z_sign_clear].
  apply sum_sign_clear, square_sign_clear.
Qed.

(** ** rmse of an array against itself *)

Lemma fsub_self t x : is_finite x = true -> fsub t x x = pzero.
Proof.
  unfold fsub. destruct x as [s|s| |s m e]; try discriminate; intros _.
  - destruct s; reflexivity.
  - unfold SFsub, binary_normalize. now rewrite Z.sub_diag.
Qed.

Lemma of_Z_positive t z :
  np_floating t -> (0 < z)%Z ->
  of_Z t z = S754_infinity false \/
  exists p e, of_Z t z = S754_finite false p e.
Proof.
  intros Ht Hz. unfold of_Z, binary_normalize.
  destruct z as [|p|p]; try lia.
  destruct Ht as [-> | ->]; apply binary_round_nonzero;
    reflexivity || discriminate.
Qed.

Lemma sum_zeros t (a : list float) :
  Forall (fun x => x = pzero) a -> Np.sum t a = pzero.
Proof.
  apply (@float_sum_closed t (fun x => x = pzero));
    [reflexivity | now intros x y -> -> | apply sum_float_sum].
Qed.

Lemma rmse_self t x :
  np_floating t ->
  x <> [] ->
  Forall (fun v => is_finite v = true) x ->
  rmse t x x = Some pzero.
Proof.
  intros Ht Hne Hfin. unfold rmse.
  rewrite subtract_same_length by reflexivity. simpl.
  assert (Hsq : Forall (fun v => v = pzero)
                  (Np.square t (Np.zip_with (fsub t) x x))).
  { unfold Np.square, Np.zip_with. clear Hne.
    induction Hfin as [|v x Hv _ IH]; simpl; constructor; [|exact IH].
    now rewrite (fsub_self t v Hv). }
  unfold Np.mean. rewrite (@sum_zeros t _ Hsq).
  unfold Np.square. rewrite length_map, zip_with_length, Nat.min_id.
  destruct (@of_Z_positive t (Z.of_nat (length x)) Ht) as [-> | (p & e & ->)];
    try reflexivity.
  destruct x; [congruence | simpl; lia].
Qed.

(** C7 as stated fails on both counts: an array holding [+inf] has
    [rmse(x, x) = nan], not 0; and [rmse([2^-80], [0]) = 0] in float32
    although the arrays differ, because the squared difference underflows. *)
Lemma rmse_zero_iff_identical_fails :
  rmse float32 [S754_infinity false] [S754_infinity false] = Some nan /\
  valid float32 (S754_finite false 8388608 (-103)) = true /\
  rmse float32 [S754_finite false 8388608 (-103)] [pzero] = Some pzero /\
  [S754_finite false 8388608 (-103)] <> [pzero].
Proof.
  repeat split; try (vm_compute; reflexivity). discriminate.
Qed.

(** C7, amended. For float32 and float64 arrays: [rmse(x, x) == 0] for
    every non-empty array [x] whose entries are all finite (neither NaN
    nor an infinity), so two elementwise identical such arrays have error 0;
    and whenever [rmse(a, b)] returns, the value is never negative: it is
    NaN or its sign bit is clear. *)
Theorem rmse_zero_and_sign :
  forall (t : dtype) (a b : list float),
    np_floating t ->
    (a <> [] -> Forall (fun v => is_finite v = true) a ->
     rmse t a a = Some pzero) /\
    (forall r, rmse t a b = Some r -> is_nan r = true \/ sign_clear r = true).
Proof.
  intros t a b Ht. split.
  - intros Hne Hfin. now apply rmse_self.
  - intros r Hr. apply rmse_sign_clear in Hr.
    unfold nonneg_or_nan in Hr. now apply orb_true_iff in Hr.
Qed.

Lemma rmse_zero_and_sign_witness :
  np_floating float32 /\
  rmse float32 (map (of_Z float32) [1; 5]%Z) (map (of_Z float32) [1; 5]%Z) =
    Some pzero /\
  (forall r,
      rmse float32 (map (of_Z float32) [1; 5]%Z) (map (of_Z float32) [1; 2]%Z) =
        Some r ->
      is_nan r = true \/ sign_clear r = true).
Proof.
  assert (Ht : np_floating float32) by (left; reflexivity).
  split; [exact Ht|].
  destruct (@rmse_zero_and_sign float32 (map (of_Z float32) [1; 5]%Z)
              (map (of_Z float32) [1; 2]%Z) Ht) as [Hself Hsign].
  split; [|exact Hsign].
  apply Hself; [discriminate | repeat constructor].
Defined.

(** ** The value of [rmse] *)





(* ================================================================= *)
(** * Further properties *)

(** ** Signs and symmetry of the arithmetic *)

Lemma binary_round_aux_negb prec emax s m e l :
  binary_round_aux prec emax (negb s) m e l =
    SFopp (binary_round_aux prec emax s m e l).
Proof.
  unfold binary_round_aux.
  destruct (shr_fexp prec emax m e l) as [mrs1 e1].
  destruct (shr_fexp prec emax _ e1 loc_Exact) as [mrs2 e2].
  destruct (shr_m mrs2); try reflexivity.
  destruct (Z.leb e2 (emax - prec)); reflexivity.
Qed.

Lemma binary_round_negb prec emax s m e :
  binary_round prec emax (negb s) m e = SFopp (binary_round prec emax s m e).
Proof.
  unfold binary_round. destruct (shl_align m e _) as [mz ez].
  apply binary_round_aux_negb.
Qed.

Lemma binary_normalize_opp prec emax z e :
  binary_normalize prec emax (- z) e false = 
    match z with
    | Z0 => S754_zero false
    | _ => SFopp (binary_normalize prec emax z e false)
    end.
Proof.
  destruct z as [|p|p]; simpl; try reflexivity.
  - apply (binary_round_negb prec emax false).
  - apply (binary_round_negb prec emax true).
Qed.

Lemma fsub_swap t x y :
  fsub t y x = fsub t x y \/ fsub t y x = SFopp (fsub t x y).
Proof.
  unfold fsub.
  destruct x as [sx|sx| |sx mx ex], y as [sy|sy| |sy my ey];
    try (destruct sx, sy; simpl; auto; fail);
    try (destruct sx; simpl; auto; fail);
    try (destruct sy; simpl; auto; fail);
    try (simpl; auto; fail).
  unfold SFsub. rewrite (Z.min_comm ey ex).
  set (a := cond_Zopp sx _). set (b := cond_Zopp sy _).
  replace (b - a)%Z with (- (a - b))%Z by lia.
  rewrite binary_normalize_opp.
  destruct (a - b)%Z; simpl; auto.
Qed.

Lemma square_fsub_swap t x y :
  fmul t (fsub t y x) (fsub t y x) = fmul t (fsub t x y) (fsub t x y).
Proof.
  destruct (fsub_swap t x y) as [-> | ->]; [reflexivity | apply fmul_opp_opp].
Qed.

Lemma fadd_comm t x y : fadd t x y = fadd t y x.
Proof.
  unfold fadd.
  destruct x as [sx|sx| |sx mx ex], y as [sy|sy| |sy my ey];
    try (destruct sx, sy; reflexivity);
    try (destruct sx; reflexivity);
    try (destruct sy; reflexivity);
    try reflexivity.
  unfold SFadd. now rewrite (Z.min_comm ey ex), Z.add_comm.
Qed.

(** ** More on rmse *)

Lemma zip_with_square_swap t a b :
  Np.square t (Np.zip_with (fsub t) a b) =
  Np.square t (Np.zip_with (fsub t) b a).
Proof.
  unfold Np.square, Np.zip_with. revert b.
  induction a as [|x a IH]; intros [|y b]; simpl; try reflexivity.
  now rewrite square_fsub_swap, IH.
Qed.

Lemma square_subtract_swap t a b :
  option_map (Np.square t) (Np.subtract t a b) =
  option_map (Np.square t) (Np.subtract t b a).
Proof.
  unfold Np.subtract, Np.broadcast.
  rewrite (Nat.eqb_sym (length b) (length a)).
  destruct (Nat.eqb (length a) (length b)) eqn:E; simpl.
  - now rewrite zip_with_square_swap.
  - assert (Hmap : forall x l,
              Np.square t (map (fsub t x) l) =
              Np.square t (map (fun y => fsub t y x) l)).
    { intros x l. unfold Np.square. rewrite !map_map.
      apply map_ext. intros y. apply square_fsub_swap. }
    destruct a as [|x [|x' a']], b as [|y [|y' b']]; simpl in E;
      try discriminate; try reflexivity;
      cbv beta iota; unfold option_map; f_equal;
      first [apply Hmap | symmetry; apply Hmap].
Qed.

Lemma rmse_via_squares t a b :
  rmse t a b =
    option_map (fun sq => fsqrt t (Np.mean t sq))
      (option_map (Np.square t) (Np.subtract t a b)).
Proof.
  unfold rmse. destruct (Np.subtract t a b); reflexivity.
Qed.

(** X1. [rmse] is symmetric in its two arguments, on every pair of
    arrays: same value, or the same failure to broadcast. *)
Theorem rmse_symmetric :
  forall (t : dtype) (numerical expected : list float),
    rmse t numerical expected = rmse t expected numerical.
Proof.
  intros t a b. now rewrite !rmse_via_squares, square_subtract_swap.
Qed.

Lemma mean_nan t d : d = [] \/ In nan d -> Np.mean t d = nan.
Proof.
  intros [-> | H]; [reflexivity|].
  unfold Np.mean. now rewrite (float_sum_nan (sum_float_sum t d) H).
Qed.

Lemma fsub_nan_l t y : fsub t nan y = nan.
Proof. reflexivity. Qed.

Lemma fsub_nan_r t x : fsub t x nan = nan.
Proof. destruct x as [s|s| |s m e]; reflexivity. Qed.

Lemma square_nan t d : d = [] \/ In nan d ->
  Np.square t d = [] \/ In nan (Np.square t d).
Proof.
  intros [-> | H]; [now left | right].
  unfold Np.square. apply in_map_iff. exists nan. now split.
Qed.

Lemma zip_with_nan t a b :
  length a = length b -> In nan a \/ In nan b ->
  In nan (Np.zip_with (fsub t) a b).
Proof.
  unfold Np.zip_with. revert b.
  induction a as [|x a IH]; intros [|y b] Hlen H; simpl in *;
    try discriminate; [tauto|].
  injection Hlen as Hlen.
  destruct H as [[-> | H] | [-> | H]].
  - now left.
  - right. apply IH; auto.
  - left. apply fsub_nan_r.
  - right. apply IH; auto.
Qed.

Lemma subtract_nan t a b d :
  Np.subtract t a b = Some d -> In nan a \/ In nan b ->
  d = [] \/ In nan d.
Proof.
  unfold Np.subtract, Np.broadcast.
  destruct (Nat.eqb (length a) (length b)) eqn:E.
  - apply Nat.eqb_eq in E. intros H Hn. injection H as <-.
    right. now apply zip_with_nan.
  - assert (Hl : forall x l, x = nan \/ In nan l ->
              map (fsub t x) l = [] \/ In nan (map (fsub t x) l)).
    { intros x l [-> | H].
      - destruct l as [|y l]; [now left | right; now left].
      - right. apply in_map_iff. exists nan. split; [apply fsub_nan_r | exact H]. }
    assert (Hr : forall y l, y = nan \/ In nan l ->
              map (fun x => fsub t x y) l = [] \/
              In nan (map (fun x => fsub t x y) l)).
    { intros y l [-> | H].
      - destruct l as [|x l]; [now left | right; left; apply fsub_nan_r].
      - right. apply in_map_iff. exists nan. split; [reflexivity | exact H]. }
    destruct a as [|x [|x' a']], b as [|y [|y' b']]; simpl in E;
      try discriminate; cbv beta iota; intros H Hn;
      try discriminate; injection H as <-;
      first [ now left
            | apply (Hl x (y :: y' :: b')); simpl in Hn |- *; tauto
            | apply (Hr y (x :: x' :: a')); simpl in Hn |- *; tauto ].
Qed.

(** X2. A NaN anywhere in either array makes the error NaN: whenever
    [rmse] returns on such a pair, it returns NaN. *)
Theorem rmse_nan_propagates :
  forall (t : dtype) (numerical expected : list float) (r : float),
    In nan numerical \/ In nan expected ->
    rmse t numerical expected = Some r ->
    r = nan.
Proof.
  intros t a b r Hn. unfold rmse.
  destruct (Np.subtract t a b) as [d|] eqn:E; simpl; [|discriminate].
  intros H. injection H as <-.
  rewrite (mean_nan t (square_nan t (subtract_nan t a b E Hn))).
  reflexivity.
Qed.

(** X3. An empty array raises nothing: [rmse([], [])] is NaN, and so
    is every value [rmse] returns when one of the arrays is empty. *)
Theorem rmse_empty :
  forall (t : dtype),
    rmse t [] [] = Some nan /\
    forall (numerical expected : list float) (r : float),
      numerical = [] \/ expected = [] ->
      rmse t numerical expected = Some r ->
      r = nan.
Proof.
  intros t. split; [reflexivity|].
  intros a b r Hempty. unfold rmse, Np.subtract, Np.broadcast.
  destruct Hempty as [-> | ->].
  - destruct b as [|y [|y' b']]; simpl; try discriminate;
      intros H; injection H as <-; reflexivity.
  - destruct a as [|x [|x' a']]; simpl; try discriminate;
      intros H; injection H as <-; reflexivity.
Qed.

(** ** More on get_bulk_edge_values *)

Lemma select_map_true {A} (f : A -> bool) l :
  Forall (fun x => f x = true) (Np.select (map f l) l).
Proof.
  induction l as [|x l IH]; simpl; [constructor|].
  destruct (f x) eqn:E; [constructor; assumption | assumption].
Qed.

Lemma select_map_false {A} (f : A -> bool) l :
  Forall (fun x => f x = false) (Np.select (map negb (map f l)) l).
Proof.
  induction l as [|x l IH]; simpl; [constructor|].
  destruct (f x) eqn:E; simpl; [assumption | constructor; assumption].
Qed.

Lemma select_permutation {A} mask (a : list A) :
  length mask = length a ->
  Permutation (Np.select mask a ++ Np.select (map negb mask) a) a.
Proof.
  revert a. induction mask as [|b mask IH]; intros [|x a] H;
    simpl in *; try discriminate; [constructor|].
  injection H as H. specialize (IH a H).
  destruct b; simpl.
  - now constructor.
  - apply Permutation_sym, Permutation_cons_app, Permutation_sym, IH.
Qed.

Lemma get_bulk_edge_values_some {A} t (counts : list A) bins res :
  get_bulk_edge_values t counts bins = Some res ->
  let lefts := Np.drop_last bins in
  let m := map (in_bulk t) lefts in
  (length lefts = 0 \/ length lefts = length counts) /\
  res = (Np.select m counts, Np.select m lefts,
         Np.select (map negb m) counts, Np.select (map negb m) lefts).
Proof.
  rewrite get_bulk_edge_values_eq.
  destruct (Nat.eqb _ 0) eqn:E0; simpl.
  - apply Nat.eqb_eq in E0. intros H. injection H as <-.
    split; [now left | reflexivity].
  - destruct (Nat.eqb _ (length counts)) eqn:E; [|discriminate].
    apply Nat.eqb_eq in E. intros H. injection H as <-.
    split; [now right | reflexivity].
Qed.

(** X4. Whatever [get_bulk_edge_values] returns, every bulk edge passes
    the test [-2 <= b <= 2] and every tail edge fails it (a NaN edge is a
    tail edge). *)
Theorem get_bulk_edge_values_sound :
  forall (A : Type) (t : dtype) (counts : list A) (bins : list float)
         bulk_rho bulk_lambdas tails_rho tails_lambdas,
    get_bulk_edge_values t counts bins =
      Some (bulk_rho, bulk_lambdas, tails_rho, tails_lambdas) ->
    Forall (fun b =>
              fle b (scalar t (py_float_of_int 2)) = true /\
              fge b (scalar t (SFopp (py_float_of_int 2))) = true)
           bulk_lambdas /\
    Forall (fun b =>
              fle b (scalar t (py_float_of_int 2)) = false \/
              fge b (scalar t (SFopp (py_float_of_int 2))) = false)
           tails_lambdas /\
    ~ In nan bulk_lambdas.
Proof.
  intros A t counts bins br bl tr tl H.
  apply get_bulk_edge_values_some in H. destruct H as [_ H].
  injection H as -> -> -> ->.
  assert (Hb := select_map_true (in_bulk t) (Np.drop_last bins)).
  assert (Ht := select_map_false (in_bulk t) (Np.drop_last bins)).
  split; [|split].
  - eapply Forall_impl; [|exact Hb].
    intros b Hin. unfold in_bulk in Hin. now apply andb_true_iff in Hin.
  - eapply Forall_impl; [|exact Ht].
    intros b Hin. unfold in_bulk in Hin. now apply andb_false_iff in Hin.
  - intros Hnan. rewrite Forall_forall in Hb.
    specialize (Hb nan Hnan).
    destruct t as [p e]. unfold in_bulk, fle in Hb. simpl in Hb. discriminate.
Qed.

(** X5. Whenever [get_bulk_edge_values] returns, the bulk and tail
    edges together are a rearrangement of the left edges [bins[:-1]].  If
    [bins] has at least two entries (or [counts] is empty), the bulk and
    tail counts together are a rearrangement of [counts]: nothing is lost
    or duplicated.  If [bins] has fewer than two entries the masks are
    empty and both arrays of counts come back empty, whatever [counts]
    holds. *)
Theorem get_bulk_edge_values_partition :
  forall (A : Type) (t : dtype) (counts : list A) (bins : list float)
         bulk_rho bulk_lambdas tails_rho tails_lambdas,
    get_bulk_edge_values t counts bins =
      Some (bulk_rho, bulk_lambdas, tails_rho, tails_lambdas) ->
    Permutation (bulk_lambdas ++ tails_lambdas) (removelast bins) /\
    (2 <= length bins \/ counts = [] ->
     Permutation (bulk_rho ++ tails_rho) counts) /\
    (length bins <= 1 -> bulk_rho = [] /\ tails_rho = []).
Proof.
  intros A t counts bins br bl tr tl H.
  apply get_bulk_edge_values_some in H. destruct H as [Hlen H].
  injection H as -> -> -> ->.
  assert (Hb := drop_last_length bins).
  split; [|split].
  - apply select_permutation. now rewrite length_map.
  - intros [H2 | ->].
    + apply select_permutation. rewrite length_map. lia.
    + assert (Hn : forall m : list bool, Np.select m (@nil A) = [])
        by (intros [|? ?]; reflexivity).
      rewrite !Hn. constructor.
  - intros H1.
    assert (H0 : Np.drop_last bins = [])
      by (apply length_zero_iff_nil; lia).
    rewrite H0. split; reflexivity.
Qed.

(** X6. The right edge of the last bin is never looked at: replacing it
    changes nothing. *)
Theorem get_bulk_edge_values_last_edge :
  forall (A : Type) (t : dtype) (counts : list A) (lefts : list float)
         (e e' : float),
    get_bulk_edge_values t counts (lefts ++ [e]) =
    get_bulk_edge_values t counts (lefts ++ [e']).
Proof.
  intros A t counts lefts e e'.
  rewrite !get_bulk_edge_values_eq. unfold Np.drop_last.
  now rewrite !removelast_last.
Qed.

Lemma select_all {A B} (f : B -> bool) (l : list B) (a : list A) :
  Forall (fun x => f x = true) l -> length l = length a ->
  Np.select (map f l) a = a /\ Np.select (map negb (map f l)) a = [].
Proof.
  intros Hall. revert a.
  induction Hall as [|x l Hx _ IH]; intros [|y a] Hlen; simpl in *;
    try discriminate; [split; reflexivity|].
  injection Hlen as Hlen. destruct (IH a Hlen) as [H1 H2].
  rewrite Hx. simpl. now rewrite H1, H2.
Qed.

Lemma select_none {A B} (f : B -> bool) (l : list B) (a : list A) :
  Forall (fun x => f x = false) l -> length l = length a ->
  Np.select (map f l) a = [] /\ Np.select (map negb (map f l)) a = a.
Proof.
  intros Hall. revert a.
  induction Hall as [|x l Hx _ IH]; intros [|y a] Hlen; simpl in *;
    try discriminate; [split; reflexivity|].
  injection Hlen as Hlen. destruct (IH a Hlen) as [H1 H2].
  rewrite Hx. simpl. now rewrite H1, H2.
Qed.

(** X7. Splitting is stable: the bulk part of a result, given back to
    the function with any closing edge, comes out again as bulk with empty
    tails, and the tail part comes out as tails with an empty bulk. *)
Theorem get_bulk_edge_values_idempotent :
  forall (A : Type) (t : dtype) (counts : list A) (bins : list float)
         bulk_rho bulk_lambdas tails_rho tails_lambdas (e : float),
    get_bulk_edge_values t counts bins =
      Some (bulk_rho, bulk_lambdas, tails_rho, tails_lambdas) ->
    get_bulk_edge_values t bulk_rho (bulk_lambdas ++ [e]) =
      Some (bulk_rho, bulk_lambdas, [], []) /\
    get_bulk_edge_values t tails_rho (tails_lambdas ++ [e]) =
      Some ([], [], tails_rho, tails_lambdas).
Proof.
  intros A t counts bins br bl tr tl e H.
  apply get_bulk_edge_values_some in H. destruct H as [Hlen H].
  injection H as -> -> -> ->.
  destruct Hlen as [H0 | Hlen].
  { apply length_zero_iff_nil in H0. rewrite H0. split; reflexivity. }
  set (lefts := Np.drop_last bins) in *.
  set (m := map (in_bulk t) lefts).
  assert (Hm : length m = length lefts) by (unfold m; now rewrite length_map).
  assert (Hm' : length (map negb m) = length lefts) by now rewrite length_map.
  assert (Hb := select_map_true (in_bulk t) lefts). fold m in Hb.
  assert (Ht := select_map_false (in_bulk t) lefts). fold m in Ht.
  assert (Hlb : length (Np.select m lefts) = length (Np.select m counts))
    by (apply select_length_same; congruence).
  assert (Hlt : length (Np.select (map negb m) lefts) =
                length (Np.select (map negb m) counts))
    by (apply select_length_same; congruence).
  rewrite !get_bulk_edge_values_eq. unfold Np.drop_last.
  rewrite !removelast_last, Hlb, Hlt, !Nat.eqb_refl, !orb_true_r.
  destruct (select_all (in_bulk t) (Np.select m counts) Hb Hlb) as [-> ->].
  destruct (select_all (in_bulk t) (Np.select m lefts) Hb eq_refl) as [-> ->].
  destruct (select_none (in_bulk t) (Np.select (map negb m) counts) Ht Hlt)
    as [-> ->].
  destruct (select_none (in_bulk t) (Np.select (map negb m) lefts) Ht eq_refl)
    as [-> ->].
  split; reflexivity.
Qed.

(** ** Rounded values are representable *)

Section Representable.
Local Open Scope Z_scope.
Variables prec emax : Z.
Hypothesis prec_pos : 0 < prec.

Lemma Zdigits2_div m k :
  0 < m -> 0 <= k -> 0 < m / 2 ^ k ->
  Zdigits2 (m / 2 ^ k) = Zdigits2 m - k.
Proof.
  intros Hm Hk Hq.
  rewrite (@Zdigits2_log2 m Hm), (@Zdigits2_log2 _ Hq).
  rewrite <- Z.shiftr_div_pow2 by exact Hk.
  rewrite Z.log2_shiftr by exact Hm.
  assert (k <= Z.log2 m); [|lia].
  apply Z.log2_le_pow2; [exact Hm|].
  destruct (Z.le_gt_cases (2 ^ k) m) as [H | H]; [exact H|].
  rewrite Z.div_small in Hq; lia.
Qed.

Lemma Zdigits2_pow2 n : 0 <= n -> Zdigits2 (2 ^ n) = n + 1.
Proof.
  intros Hn.
  rewrite Zdigits2_log2 by (apply Z.pow_pos_nonneg; lia).
  now rewrite Z.log2_pow2.
Qed.

Lemma Zdigits2_unique m n :
  0 < n -> 2 ^ (n - 1) <= m < 2 ^ n -> Zdigits2 m = n.
Proof.
  intros Hn Hm.
  assert (Hpos : 0 < m).
  { assert (0 < 2 ^ (n - 1)) by (apply Z.pow_pos_nonneg; lia). lia. }
  rewrite (@Zdigits2_log2 m Hpos).
  rewrite (Z.log2_unique m (n - 1)); [lia | lia |].
  replace (Z.succ (n - 1)) with n by lia. exact Hm.
Qed.

Lemma Zdigits2_pos m : 0 < m -> 0 < Zdigits2 m.
Proof.
  intros Hm. rewrite (@Zdigits2_log2 m Hm).
  pose proof (Z.log2_nonneg m). lia.
Qed.

(** A positive mantissa given at or below the exponent of its grid rounds
    to zero, to an infinity, or to a canonical mantissa within range. *)
Lemma binary_round_aux_valid s m e l :
  0 < m ->
  e <= fexp prec emax (Zdigits2 m + e) ->
  valid_binary prec emax (binary_round_aux prec emax s m e l) = true.
Proof.
  intros Hm He.
  destruct (@binary_round_aux_spec prec emax s m e l (Z.lt_le_incl _ _ Hm))
    as [m2 [Hm2 Heq]].
  cbv zeta in Heq. rewrite Heq. clear Heq.
  set (d := Zdigits2 m) in *.
  assert (Hd : 0 < d) by (apply Zdigits2_pos; exact Hm).
  assert (Hk1 : shift_of prec emax m e = fexp prec emax (d + e) - e).
  { unfold shift_of. fold d. lia. }
  rewrite Hk1 in *.
  set (k1 := fexp prec emax (d + e) - e) in *.
  replace (e + k1) with (fexp prec emax (d + e)) by (unfold k1; lia).
  set (e1 := fexp prec emax (d + e)) in *.
  assert (Hk1' : 0 <= k1) by (unfold k1; lia).
  assert (Hp1 : 0 < 2 ^ k1) by (apply Z.pow_pos_nonneg; lia).
  assert (Hm1 : 0 <= m / 2 ^ k1) by (apply Z.div_pos; lia).
  set (k2 := shift_of prec emax m2 e1).
  assert (Hk2 : 0 <= k2) by (unfold k2, shift_of; lia).
  assert (Hp2 : 0 < 2 ^ k2) by (apply Z.pow_pos_nonneg; lia).
  destruct (Z.eq_dec m2 0) as [-> | Hm2nz].
  { rewrite Z.div_0_l by lia. reflexivity. }
  assert (Hm2pos : 0 < m2) by lia.
  (* the grid of [m2]: either it is the subnormal grid, or [m2] has the
     digits of the truncated mantissa, or one more after a carry *)
  assert (Hgrid :
    (k2 = 0 /\ fexp prec emax (Zdigits2 m2 + e1) = e1) \/
    (k2 = 1 /\ exists n, 0 < n /\ m2 = 2 ^ n /\
               fexp prec emax (n + (e1 + 1)) = e1 + 1)).
  { destruct (Z.eq_dec (m / 2 ^ k1) 0) as [Hz | Hnz].
    - (* everything was shifted out: [m2 = 1] on the subnormal grid *)
      assert (m2 = 1) by lia. subst m2.
      assert (Hlt : m < 2 ^ k1).
      { destruct (Z.le_gt_cases (2 ^ k1) m) as [H | H]; [|exact H].
        assert (0 < m / 2 ^ k1) by (apply Z.div_str_pos; lia). lia. }
      assert (Hdk : d <= k1).
      { unfold d. rewrite (@Zdigits2_log2 m Hm).
        assert (Z.log2 m < k1) by (apply Z.log2_lt_pow2; assumption). lia. }
      left. unfold k2, shift_of. simpl Zdigits2.
      unfold e1, k1, fexp in *. lia.
    - assert (Hq : 0 < m / 2 ^ k1) by lia.
      assert (Hd1 := @Zdigits2_div m k1 Hm Hk1' Hq). fold d in Hd1.
      set (m1 := m / 2 ^ k1) in *.
      set (d1 := Zdigits2 m1) in *.
      assert (Hd1pos : 0 < d1) by (apply Zdigits2_pos; exact Hq).
      assert (Hcan1 : fexp prec emax (d1 + e1) = e1).
      { rewrite Hd1. unfold e1, k1, fexp in *. lia. }
      destruct (@pow2_le_of_digits m1 Hq) as [Hlow Hhigh].
      fold d1 in Hlow, Hhigh.
      destruct (Z.eq_dec m2 (2 ^ d1)) as [Hcarry | Hnocarry].
      + assert (Hd2 : Zdigits2 m2 = d1 + 1)
          by (rewrite Hcarry; apply Zdigits2_pow2; lia).
        assert (Hk2v : k2 = Z.max 0 (fexp prec emax (d1 + 1 + e1) - e1))
          by (unfold k2, shift_of; now rewrite Hd2).
        destruct (Z.eq_dec k2 0) as [Hk0 | Hk0].
        * left. split; [exact Hk0|]. rewrite Hd2.
          unfold fexp in *. lia.
        * right. split; [unfold fexp in *; lia|].
          exists d1. split; [exact Hd1pos|]. split; [exact Hcarry|].
          unfold fexp in *. lia.
      + assert (Hd2 : Zdigits2 m2 = d1)
          by (apply Zdigits2_unique; [exact Hd1pos | lia]).
        left. unfold k2, shift_of. rewrite Hd2, Hcan1. split; lia. }
  destruct Hgrid as [[Hk0 Hcan] | [Hk1v (n & Hn & Hpow & Hcan)]].
  - rewrite Hk0, Z.pow_0_r, Z.div_1_r, Z.add_0_r.
    destruct m2 as [|p|p] eqn:Ep; try lia.
    destruct (e1 <=? emax - prec) eqn:Hle; [|reflexivity].
    simpl. unfold bounded, canonical_mantissa.
    rewrite Hle, andb_true_r. apply Z.eqb_eq. exact Hcan.
  - rewrite Hk1v, Z.pow_1_r.
    assert (Hhalf : m2 / 2 = 2 ^ (n - 1)).
    { rewrite Hpow. replace n with (Z.succ (n - 1)) at 1 by lia.
      rewrite Z.pow_succ_r by lia.
      rewrite Z.mul_comm, Z.div_mul by lia. reflexivity. }
    rewrite Hhalf.
    assert (Hdh : Zdigits2 (2 ^ (n - 1)) = n)
      by (rewrite Zdigits2_pow2 by lia; lia).
    destruct (2 ^ (n - 1)) as [|p|p] eqn:Ep;
      try (assert (0 < 2 ^ (n - 1)) by (apply Z.pow_pos_nonneg; lia); lia).
    destruct (e1 + 1 <=? emax - prec) eqn:Hle; [|reflexivity].
    simpl. unfold bounded, canonical_mantissa.
    rewrite Hle, andb_true_r. apply Z.eqb_eq.
    simpl in Hdh. rewrite Hdh. exact Hcan.
Qed.

Lemma shl_align_exp m e e' : snd (shl_align m e e') = Z.min e e'.
Proof.
  unfold shl_align. destruct (e' - e) eqn:K; simpl; lia.
Qed.

Lemma binary_round_valid s m e :
  valid_binary prec emax (binary_round prec emax s m e) = true.
Proof.
  unfold binary_round.
  set (target := fexp prec emax (Z.pos (digits2_pos m) + e)).
  assert (Hv := shl_align_value m e target).
  assert (Hx := shl_align_exp m e target).
  destruct (shl_align m e target) as [mz ez]. cbn [fst snd] in Hv, Hx.
  apply binary_round_aux_valid; [reflexivity|].
  assert (Hdig : Zdigits2 (Z.pos mz) = Z.pos (digits2_pos m) + Z.max 0 (e - target)).
  { assert (0 < 2 ^ Z.max 0 (e - target)) by (apply Z.pow_pos_nonneg; lia).
    rewrite Hv, Zdigits2_log2 by lia.
    rewrite Z.log2_mul_pow2 by lia.
    change (Z.pos (digits2_pos m)) with (Zdigits2 (Z.pos m)).
    rewrite (@Zdigits2_log2 (Z.pos m)) by reflexivity. lia. }
  rewrite Hdig, Hx.
  destruct (Z.le_gt_cases e target) as [H | H].
  - replace (Z.max 0 (e - target)) with 0 by lia.
    replace (Z.min e target) with e by lia.
    rewrite Z.add_0_r. fold target. exact H.
  - replace (Z.min e target) with target by lia.
    replace (Z.pos (digits2_pos m) + Z.max 0 (e - target) + target)
      with (Z.pos (digits2_pos m) + e) by lia.
    fold target. lia.
Qed.
End Representable.

Lemma astype_valid t x :
  (0 < dt_prec t)%Z -> valid t (astype t x) = true.
Proof.
  intros Hp. destruct x as [s|s| |s m e]; try reflexivity.
  now apply binary_round_valid.
Qed.

(** ** More on wigner *)

Lemma binary_round_aux_cases prec emax m e l :
  (0 <= m)%Z ->
  binary_round_aux prec emax false m e l = S754_zero false \/
  binary_round_aux prec emax false m e l = S754_infinity false \/
  exists p e3,
    binary_round_aux prec emax false m e l = S754_finite false p e3 /\
    (emin prec emax <= e3)%Z.
Proof.
  intros Hm.
  destruct (@binary_round_aux_spec prec emax false m e l Hm)
    as [m2 [Hm2 Heq]].
  cbv zeta in Heq. rewrite Heq.
  destruct (m2 / 2 ^ shift_of prec emax m2 (e + shift_of prec emax m e))%Z
    as [|p|p] eqn:E.
  - now left.
  - destruct (_ <=? _)%Z; [|right; now left].
    right. right. eexists _, _. split; [reflexivity|].
    unfold shift_of, fexp. lia.
  - exfalso.
    assert (0 <= m / 2 ^ shift_of prec emax m e)%Z.
    { apply Z.div_pos; [lia | apply Z.pow_pos_nonneg; unfold shift_of; lia]. }
    assert (0 <= m2 / 2 ^ shift_of prec emax m2 (e + shift_of prec emax m e))%Z.
    { apply Z.div_pos; [lia | apply Z.pow_pos_nonneg; unfold shift_of; lia]. }
    lia.
Qed.

Lemma sign_clear_nonneg_or_nan x : sign_clear x = true -> nonneg_or_nan x = true.
Proof. intros H. unfold nonneg_or_nan. rewrite H. apply orb_true_r. Qed.

(** The density formula after the square: never a negative value. *)
Lemma density_of_square_sign prec emax (four c : positive) (e4 ec : Z) r :
  (0 < prec)%Z ->
  (emin prec emax <= e4)%Z ->
  r = S754_zero false \/ r = S754_infinity false \/ r = S754_nan \/
  (exists p e3, r = S754_finite false p e3 /\ (emin prec emax <= e3)%Z) ->
  nonneg_or_nan
    (astype float32
       (SFdiv prec emax
          (SFsqrt prec emax (SFsub prec emax (S754_finite false four e4) r))
          (S754_finite false c ec))) = true.
Proof.
  intros Hp He4 [-> | [-> | [-> | (p & e3 & -> & He3)]]];
    try reflexivity.
  - apply sign_clear_nonneg_or_nan, astype_nonneg, SFdiv_nonneg, SFsqrt_nonneg.
    reflexivity.
  - unfold SFsub, binary_normalize, cond_Zopp.
    destruct (Z.pos _ - Z.pos _)%Z as [|q|q].
    + reflexivity.
    + apply sign_clear_nonneg_or_nan, astype_nonneg, SFdiv_nonneg,
        SFsqrt_nonneg, binary_round_nonneg.
    + destruct (@binary_round_nonzero prec emax Hp true q (Z.min e4 e3))
        as [-> | (p' & e' & ->)]; [lia | reflexivity | reflexivity].
Qed.

Lemma fmul_self_cases t x :
  fmul t x x = S754_zero false \/ fmul t x x = S754_infinity false \/
  fmul t x x = S754_nan \/
  (exists p e3, fmul t x x = S754_finite false p e3 /\
                (emin (dt_prec t) (dt_emax t) <= e3)%Z).
Proof.
  unfold fmul. destruct x as [s|s| |s m e]; simpl.
  - left. now destruct s.
  - right. left. now destruct s.
  - right. right. now left.
  - replace (xorb s s) with false by (now destruct s).
    destruct (@binary_round_aux_cases (dt_prec t) (dt_emax t)
                (Z.pos (m * m)) (e + e) loc_Exact) as [H | [H | H]];
      [lia | now left | right; now left | right; right; now right].
Qed.

Lemma wigner_point_sign t x :
  np_floating t -> nonneg_or_nan (wigner_point t x) = true.
Proof.
  intros [-> | ->]; unfold wigner_point, fdiv, fsqrt, fsub.
  - change (of_Z float32 4) with (S754_finite false 8388608 (-21)).
    change (scalar float32 (fmul float64 (py_float_of_int 2) np_pi))
      with (S754_finite false 13176795 (-21)).
    apply density_of_square_sign;
      [reflexivity | discriminate | apply fmul_self_cases].
  - change (of_Z float64 4) with (S754_finite false 4503599627370496 (-50)).
    change (scalar float64 (fmul float64 (py_float_of_int 2) np_pi))
      with (S754_finite false 7074237752028440 (-50)).
    apply density_of_square_sign;
      [reflexivity | discriminate | apply fmul_self_cases].
Qed.

(** X8. [wigner] never returns a negative density: on float32 and
    float64 arrays every value it returns, whatever the input, is NaN or has
    a clear sign bit (so neither a negative number nor [-0.0]). *)
Theorem wigner_never_negative :
  forall (t : dtype) (l : list float),
    np_floating t ->
    Forall (fun rho => is_nan rho = true \/ sign_clear rho = true)
           (wigner t l).
Proof.
  intros t l Ht. rewrite wigner_pointwise.
  apply Forall_forall. intros rho Hin.
  apply in_map_iff in Hin. destruct Hin as [x [<- _]].
  apply orb_true_iff. apply (wigner_point_sign x Ht).
Qed.

Lemma wigner_never_negative_witness :
  np_floating float64 /\
  Forall (fun rho => is_nan rho = true \/ sign_clear rho = true)
         (wigner float64 (map (of_Z float64) [-3; 0; 1]%Z)).
Proof.
  assert (Ht : np_floating float64) by (right; reflexivity).
  split; [exact Ht|].
  apply (@wigner_never_negative float64 (map (of_Z float64) [-3; 0; 1]%Z) Ht).
Defined.

(** X9. Every value [wigner] returns is representable in 32 bits: the
    result of the final cast is a float32 value, whatever the dtype and the
    contents of the input. *)
Theorem wigner_returns_float32 :
  forall (t : dtype) (l : list float),
    Forall (fun rho => valid float32 rho = true) (wigner t l).
Proof.
  intros t l. unfold wigner, Np.cast.
  apply Forall_forall. intros rho Hin.
  apply in_map_iff in Hin. destruct Hin as [x [<- _]].
  now apply astype_valid.
Qed.

(** ** More on rm_sampling *)

Section SamplingMore.
Variable RNG : Type.
Variable rng_normal : float -> nat -> nat -> RNG -> Np.matrix * RNG.
Variable eigvalsh : Np.matrix -> list float.
Variable float_pow : float -> float -> float.

Hypothesis normal_shape :
  forall sigma r c rng, has_shape r c (fst (rng_normal sigma r c rng)).
Hypothesis eigvalsh_length :
  forall N X, has_shape N N X -> length (eigvalsh X) = N.
Hypothesis pow_half :
  float_pow (py_float_of_int 2) py_half = fsqrt float64 (py_float_of_int 2).

(** The symmetrised matrix entry by entry, with the divisor as the code
    computes it. *)
Lemma symmetrise_entrywise N X :
  has_shape N N X ->
  symmetrise float_pow X =
    Some (map (fun i =>
            map (fun j =>
              fdiv float64 (fadd float64 (entry X i j) (entry X j i))
                           (float_pow (py_float_of_int 2) py_half))
                (seq 0 N))
              (seq 0 N)).
Proof.
  intros HX. unfold symmetrise, Np.add2.
  rewrite (same_shape_transpose HX). unfold Np.bind. f_equal.
  assert (HlenX : length X = N) by apply HX.
  assert (HlenT : length (Np.transpose X) = N).
  { unfold Np.transpose.
    now rewrite length_map, length_seq, (has_shape_ncols HX). }
  rewrite (zip_with_nth (Np.zip_with (fadd float64)) X (Np.transpose X) [] [])
    by congruence.
  unfold Np.divide_scalar2. rewrite map_map, HlenX.
  apply map_ext_in. intros i Hi. apply in_seq in Hi.
  assert (Hrow : length (nth i X []) = N) by (apply (has_shape_row HX); lia).
  assert (HrowT : nth i (Np.transpose X) [] = Np.column i X).
  { unfold Np.transpose. rewrite (has_shape_ncols HX).
    apply (@nth_map_seq _ (fun j => Np.column j X) N i []). lia. }
  rewrite HrowT.
  rewrite (zip_with_nth (fadd float64) (nth i X []) (Np.column i X) pzero pzero)
    by (unfold Np.column; rewrite length_map; congruence).
  unfold Np.divide_scalar. rewrite map_map, Hrow.
  apply map_ext. intros j. unfold entry.
  now rewrite column_nth.
Qed.

(** X10. The matrix handed to [eigvalsh] is exactly symmetric: for an
    [N] by [N] draw [X], the symmetrised [Xs] is [N] by [N] and
    [Xs[i][j] = Xs[j][i]] for all [i, j < N], bit for bit. *)
Theorem symmetrise_symmetric :
  forall (N : nat) (X : Np.matrix),
    has_shape N N X ->
    exists Xs,
      symmetrise float_pow X = Some Xs /\
      has_shape N N Xs /\
      forall i j, i < N -> j < N -> entry Xs i j = entry Xs j i.
Proof.
  intros N X HX. eexists. split; [exact (symmetrise_entrywise HX)|].
  split.
  - split; [now rewrite length_map, length_seq|].
    apply Forall_forall. intros r Hr.
    apply in_map_iff in Hr. destruct Hr as [i [<- _]].
    now rewrite length_map, length_seq.
  - intros i j Hi Hj. unfold entry.
    rewrite (@nth_map_seq _ _ N i []) by exact Hi.
    rewrite (@nth_map_seq _ _ N j []) by exact Hj.
    rewrite (@nth_map_seq _ _ N j pzero) by exact Hj.
    rewrite (@nth_map_seq _ _ N i pzero) by exact Hi.
    fold (entry X i j). fold (entry X j i).
    now rewrite fadd_comm.
Qed.

Lemma draws_add n1 n2 N sigma rng :
  draws rng_normal (n1 + n2) N sigma rng =
    let '(Xs1, rng1) := draws rng_normal n1 N sigma rng in
    let '(Xs2, rng2) := draws rng_normal n2 N sigma rng1 in
    (Xs1 ++ Xs2, rng2).
Proof.
  revert rng. induction n1 as [|n1 IH]; intros rng; simpl.
  - now destruct (draws rng_normal n2 N sigma rng).
  - destruct (rng_normal sigma N N rng) as [X rng'].
    rewrite IH.
    destruct (draws rng_normal n1 N sigma rng') as [Xs1 rng1].
    now destruct (draws rng_normal n2 N sigma rng1) as [Xs2 rng2].
Qed.

(** X11. Sampling composes: drawing [n1] samples and then, with the
    generator as it was left, [n2] more gives the same eigenvalues, in the
    same order, and the same final generator state as drawing [n1 + n2]
    samples in one call. *)
Theorem rm_sampling_split :
  forall (n1 n2 N : nat) (rng rng1 rng2 : RNG) (v1 v2 : list float),
    rm_sampling rng_normal eigvalsh float_pow n1 N rng = Some (v1, rng1) ->
    rm_sampling rng_normal eigvalsh float_pow n2 N rng1 = Some (v2, rng2) ->
    rm_sampling rng_normal eigvalsh float_pow (n1 + n2) N rng =
      Some (v1 ++ v2, rng2).
Proof.
  intros n1 n2 N rng rng1 rng2 v1 v2 H1 H2.
  destruct N as [|N']; [discriminate|].
  assert (HN : 0 < S N') by lia.
  assert (Heq := @rm_sampling_eq RNG rng_normal eigvalsh float_pow
                   normal_shape eigvalsh_length pow_half).
  rewrite Heq in H1, H2 by exact HN. rewrite Heq by exact HN. clear Heq.
  f_equal.
  assert (E1 : rm_sampling_spec rng_normal eigvalsh float_pow n1 (S N') rng =
               (v1, rng1)) by congruence.
  assert (E2 : rm_sampling_spec rng_normal eigvalsh float_pow n2 (S N') rng1 =
               (v2, rng2)) by congruence.
  clear H1 H2. revert E1 E2. unfold rm_sampling_spec.
  generalize (float_pow (py_float_of_int (Z.of_nat (S N'))) (SFopp py_half)).
  intros sigma. rewrite draws_add.
  destruct (draws rng_normal n1 (S N') sigma rng) as [Xs1 r1].
  intros E1. injection E1 as <- <-.
  destruct (draws rng_normal n2 (S N') sigma r1) as [Xs2 r2].
  intros E2. injection E2 as <- <-.
  now rewrite map_app, concat_app.
Qed.

(** X12. Every eigenvalue [rm_sampling] returns is representable in 32
    bits, whatever values [eigvalsh] produced. *)
Theorem rm_sampling_returns_float32 :
  forall (n_samples N : nat) (rng rng' : RNG) (lambdas : list float),
    rm_sampling rng_normal eigvalsh float_pow n_samples N rng =
      Some (lambdas, rng') ->
    Forall (fun v => valid float32 v = true) lambdas.
Proof.
  intros n N rng rng' v H.
  destruct N as [|N']; [discriminate|].
  rewrite (@rm_sampling_eq RNG rng_normal eigvalsh float_pow
             normal_shape eigvalsh_length pow_half) in H by lia.
  assert (E : rm_sampling_spec rng_normal eigvalsh float_pow n (S N') rng =
              (v, rng')) by congruence.
  clear H. revert E. unfold rm_sampling_spec.
  destruct (draws rng_normal n (S N') _ rng) as [Xs r].
  intros E. injection E as <- <-.
  apply Forall_forall. intros x Hx.
  apply in_concat in Hx. destruct Hx as [row [Hrow Hx]].
  apply in_map_iff in Hrow. destruct Hrow as [X [<- _]].
  apply in_map_iff in Hx. destruct Hx as [y [<- _]].
  now apply astype_valid.
Qed.
End SamplingMore.

Lemma symmetrise_symmetric_witness :
  has_shape 2 2 (fst (demo_normal (py_float_of_int 1) 2 2 0)) /\
  exists Xs,
    symmetrise demo_pow (fst (demo_normal (py_float_of_int 1) 2 2 0)) =
      Some Xs /\
    has_shape 2 2 Xs /\
    forall i j, i < 2 -> j < 2 -> entry Xs i j = entry Xs j i.
Proof.
  split; [apply demo_normal_shape|].
  apply (@symmetrise_symmetric demo_pow 2), demo_normal_shape.
Defined.

Lemma rm_sampling_split_witness :
  rm_sampling demo_normal demo_eigvalsh demo_pow (1 + 2) 1 0 =
    Some (map (astype float32) [fsqrt float64 (py_float_of_int 2)] ++
          map (astype float32)
            [fmul float64 (py_float_of_int 2) (fsqrt float64 (py_float_of_int 2));
             fmul float64 (py_float_of_int 3) (fsqrt float64 (py_float_of_int 2))],
          3).
Proof.
  apply (@rm_sampling_split nat demo_normal demo_eigvalsh demo_pow
           demo_normal_shape demo_eigvalsh_length demo_pow_half
           1 2 1 0 1 3); vm_compute; reflexivity.
Defined.

Lemma rm_sampling_returns_float32_witness :
  Forall (fun v => valid float32 v = true)
         (map (astype float32) [fsqrt float64 (py_float_of_int 2)]).
Proof.
  apply (@rm_sampling_returns_float32 nat demo_normal demo_eigvalsh demo_pow
           demo_normal_shape demo_eigvalsh_length demo_pow_half
           1 1 0 1).
  vm_compute. reflexivity.
Defined.

(** ** normal *)

Section NormalProperties.
Variable float_pow : float -> float -> float.
Variable np_exp : dtype -> float -> float.

Lemma square_opp t z : Np.square t (map SFopp z) = Np.square t z.
Proof.
  unfold Np.square. rewrite map_map.
  apply map_ext. intros x. apply fmul_opp_opp.
Qed.

(** X13. The density is even in [z]: [normal(-z, s)] and [normal(z, s)]
    are the same array, or the same error, for every array [z] and scale
    [s]. *)
Theorem normal_even :
  forall (t : dtype) (z : list float) (s : float),
    normal float_pow np_exp t (Np.negative z) s =
    normal float_pow np_exp t z s.
Proof.
  intros t z s. unfold normal, Np.negative at 1.
  now rewrite square_opp.
Qed.

(** X14. A zero scale raises: with [s = 0.0] or [s = -0.0] the divisor
    [s * (2 * np.pi) ** 0.5] is zero and [1 / ...] is a
    [ZeroDivisionError], for every [z] (as long as the power is a number). *)
Theorem normal_zero_scale :
  is_nan (float_pow (fmul float64 (py_float_of_int 2) np_pi) py_half)
    = false ->
  forall (t : dtype) (z : list float) (sign : bool),
    normal float_pow np_exp t z (S754_zero sign) = None.
Proof.
  intros Hroot t z sign. unfold normal, py_pow at 1.
  change (fmul float64 (py_float_of_int 2) np_pi)
    with (S754_finite false 7074237752028440 (-50)) in *.
  change (is_finite (S754_finite false 7074237752028440 (-50)) &&
          is_finite py_half) with true.
  cbv beta zeta.
  destruct (float_pow (S754_finite false 7074237752028440 (-50)) py_half)
    as [s'|s'| |s' m e]; try discriminate; try reflexivity.
Qed.

(** X15. Whether [normal] raises depends on the scale [s] alone, never
    on the array; and when it returns, the result has the length of [z]. *)
Theorem normal_shape_and_errors :
  forall (t : dtype) (z z' : list float) (s : float),
    (normal float_pow np_exp t z s = None ->
     normal float_pow np_exp t z' s = None) /\
    (forall r, normal float_pow np_exp t z s = Some r ->
               length r = length z).
Proof.
  intros t z z' s. unfold normal.
  destruct (py_pow float_pow _ py_half) as [root|]; simpl;
    [|split; [reflexivity | discriminate]].
  destruct (py_truediv _ _) as [coeff|]; simpl;
    [|split; [reflexivity | discriminate]].
  destruct (py_pow float_pow s _) as [s2|]; simpl;
    [|split; [reflexivity | discriminate]].
  split; [discriminate|].
  intros r H. injection H as <-.
  unfold Np.rmul_scalar, Np.divide_scalar, Np.negative, Np.square.
  now rewrite !length_map.
Qed.
End NormalProperties.

Lemma normal_zero_scale_witness :
  normal demo_pow demo_exp float64 (map (of_Z float64) [1; 2]%Z) pzero = None.
Proof.
  apply (@normal_zero_scale demo_pow demo_exp eq_refl float64
           (map (of_Z float64) [1; 2]%Z) false).
Defined.

Lemma normal_shape_and_errors_witness :
  exists r,
    normal demo_pow demo_exp float64 (map (of_Z float64) [1; 2]%Z)
      (of_Z float64 1) = Some r /\
    length r = 2.
Proof.
  destruct (normal demo_pow demo_exp float64 (map (of_Z float64) [1; 2]%Z)
              (of_Z float64 1)) as [r|] eqn:E.
  - exists r. split; [reflexivity|].
    exact (proj2 (@normal_shape_and_errors demo_pow demo_exp float64
                    (map (of_Z float64) [1; 2]%Z) [] (of_Z float64 1)) r E).
  - vm_compute in E. discriminate E.
Defined.

(** ** Instances *)

Lemma rmse_nan_propagates_witness :
  (In nan [of_Z float32 1; nan] \/ In nan [of_Z float32 1; of_Z float32 2]) /\
  rmse float32 [of_Z float32 1; nan] [of_Z float32 1; of_Z float32 2] =
    Some nan.
Proof.
  assert (Hin : In nan [of_Z float32 1; nan] \/
                In nan [of_Z float32 1; of_Z float32 2])
    by (left; right; left; reflexivity).
  split; [exact Hin|].
  destruct (rmse float32 [of_Z float32 1; nan]
              [of_Z float32 1; of_Z float32 2]) as [r|] eqn:E;
    [|discriminate E].
  f_equal.
  exact (@rmse_nan_propagates float32 [of_Z float32 1; nan]
           [of_Z float32 1; of_Z float32 2] r Hin E).
Defined.

Lemma rmse_empty_witness :
  rmse float64 [] [of_Z float64 3] = Some nan.
Proof.
  destruct (rmse float64 [] [of_Z float64 3]) as [r|] eqn:E;
    [|discriminate E].
  f_equal.
  exact (proj2 (rmse_empty float64) [] [of_Z float64 3] r
           (or_introl eq_refl) E).
Defined.

Lemma get_bulk_edge_values_sound_witness :
  Forall (fun b =>
            fle b (scalar float64 (py_float_of_int 2)) = true /\
            fge b (scalar float64 (SFopp (py_float_of_int 2))) = true)
         (map py_float_of_int [-1; 0; 1]%Z) /\
  Forall (fun b =>
            fle b (scalar float64 (py_float_of_int 2)) = false \/
            fge b (scalar float64 (SFopp (py_float_of_int 2))) = false)
         (map py_float_of_int [-3]%Z) /\
  ~ In nan (map py_float_of_int [-1; 0; 1]%Z).
Proof.
  apply (@get_bulk_edge_values_sound Z float64 [1; 2; 3; 4]%Z
           (map py_float_of_int [-3; -1; 0; 1; 3]%Z)
           [2; 3; 4]%Z (map py_float_of_int [-1; 0; 1]%Z)
           [1]%Z (map py_float_of_int [-3]%Z)).
  reflexivity.
Defined.

Lemma get_bulk_edge_values_partition_witness :
  Permutation (map py_float_of_int [-1; 0; 1]%Z ++ map py_float_of_int [-3]%Z)
              (removelast (map py_float_of_int [-3; -1; 0; 1; 3]%Z)) /\
  Permutation ([2; 3; 4] ++ [1])%Z [1; 2; 3; 4]%Z.
Proof.
  destruct (@get_bulk_edge_values_partition Z float64 [1; 2; 3; 4]%Z
              (map py_float_of_int [-3; -1; 0; 1; 3]%Z)
              [2; 3; 4]%Z (map py_float_of_int [-1; 0; 1]%Z)
              [1]%Z (map py_float_of_int [-3]%Z) eq_refl)
    as (Hedges & Hcounts & _).
  split; [exact Hedges | apply Hcounts; left; simpl; lia].
Defined.

Lemma get_bulk_edge_values_idempotent_witness :
  get_bulk_edge_values float64 [2; 3; 4]%Z
      (map py_float_of_int [-1; 0; 1]%Z ++ [nan]) =
    Some ([2; 3; 4]%Z, map py_float_of_int [-1; 0; 1]%Z, [], []) /\
  get_bulk_edge_values float64 [1]%Z (map py_float_of_int [-3]%Z ++ [nan]) =
    Some ([], [], [1]%Z, map py_float_of_int [-3]%Z).
Proof.
  apply (@get_bulk_edge_values_idempotent Z float64 [1; 2; 3; 4]%Z
           (map py_float_of_int [-3; -1; 0; 1; 3]%Z)
           [2; 3; 4]%Z (map py_float_of_int [-1; 0; 1]%Z)
           [1]%Z (map py_float_of_int [-3]%Z) nan).
  reflexivity.
Defined.
